(** * The multi-source track mixer of spotify_mixer.py

    A shallow embedding of the class [Mixer] and of [mix_tracks]
    (src/spotify_mixer.py, lines 91-185), followed by the properties of the
    mixer that the design document states.  After the mixer come the
    functions that fetch playlists and tracks and send batches
    (src/spotify_mixer.py, lines 25-88) and the request loop of
    [generate_recommendations] (src/extend_playlist.py, lines 137-237), with
    their own properties at the end of the file.

    Conventions of the embedding.
    - A track is the dict [{"track_id": .., "artist_id": ..}] built by
      [get_playlist_tracks]; both keys are always present, so it is a record.
    - [track_history] is a Python [set] of strings: a [gset string].
      [artist_history] and the sources are Python lists.
    - Python integers chosen by the caller ([min_artist_separation],
      [max_tracks]) are [Z]; indices and lengths are [nat].
    - The [while] loop of [next_track] has no static bound, so it is run with
      fuel: one unit per pass through the loop body.  [Timeout] means that the
      fuel ran out; a call that times out for every amount of fuel does not
      return.  Indexing a list out of range raises [IndexError]. *)

From Stdlib Require Import ZArith Lia.
From stdpp Require Import base decidable option list gmap strings.

Local Open Scope string_scope.
Local Open Scope list_scope.
Local Open Scope nat_scope.

(** ** Data model *)

Record Track := mkTrack {
  track_id : string;
  artist_id : string
}.

Record Mixer := mkMixer {
  source_list : list (list Track);
  dedup : bool;
  min_artist_separation : Z;
  fail_fast : bool;
  max_tracks : Z;
  track_history : gset string;
  artist_history : list string;
  cur_channel : nat;
  prepped : bool;
  source_positions : list nat
}.

(** What a call can do: return a value, raise [IndexError], or still be
    running when the fuel is gone. *)
Inductive outcome (A : Type) : Type :=
  | Done (a : A)
  | IndexError
  | Timeout.
Arguments Done {A} a.
Arguments IndexError {A}.
Arguments Timeout {A}.

(** Field updates ([self.x = ...]). *)
Definition set_cur_channel (m : Mixer) (c : nat) : Mixer :=
  mkMixer (source_list m) (dedup m) (min_artist_separation m) (fail_fast m)
          (max_tracks m) (track_history m) (artist_history m) c (prepped m)
          (source_positions m).

Definition set_source_positions (m : Mixer) (ps : list nat) : Mixer :=
  mkMixer (source_list m) (dedup m) (min_artist_separation m) (fail_fast m)
          (max_tracks m) (track_history m) (artist_history m) (cur_channel m)
          (prepped m) ps.

Definition set_history (m : Mixer) (th : gset string) (ah : list string) : Mixer :=
  mkMixer (source_list m) (dedup m) (min_artist_separation m) (fail_fast m)
          (max_tracks m) th ah (cur_channel m) (prepped m)
          (source_positions m).

Definition set_prepped (m : Mixer) (b : bool) : Mixer :=
  mkMixer (source_list m) (dedup m) (min_artist_separation m) (fail_fast m)
          (max_tracks m) (track_history m) (artist_history m) (cur_channel m)
          b (source_positions m).

(** ** Operations *)

(** [Mixer.__init__] (lines 97-110). *)
Definition init (sources : list (list Track)) (dd : bool) (sep : Z)
    (ff : bool) (maxt : Z) : Mixer :=
  mkMixer sources dd sep ff maxt ∅ [] 0 false (const 0 <$> sources).

(** The Python slice [l[start:]]: a negative [start] counts from the end and
    is clamped at the front of the list; [-0] is [0]. *)
Definition py_slice_from {A : Type} (start : Z) (l : list A) : list A :=
  let n := Z.of_nat (length l) in
  let s := if (start <? 0)%Z then Z.max (start + n) 0 else Z.min start n in
  drop (Z.to_nat s) l.

(** [Mixer.add_to_history] (lines 134-140). *)
Definition add_to_history (m : Mixer) (track : Track) : Mixer :=
  let th := track_history m ∪ {[ track_id track ]} in
  let ah := artist_history m ++ [artist_id track] in
  let ah' :=
    if (min_artist_separation m <? Z.of_nat (length ah))%Z
    then py_slice_from (- min_artist_separation m)%Z ah
    else ah in
  set_history m th ah'.

(** [Mixer.next_channel] (lines 142-145). *)
Definition next_channel (m : Mixer) : Mixer :=
  let c := cur_channel m + 1 in
  set_cur_channel m (if length (source_list m) <=? c then 0 else c).

(** [Mixer.get_next_candidate] (lines 147-155).  [Done (None, m)] is the
    Python [None] of an exhausted channel. *)
Definition get_next_candidate (m : Mixer) : outcome (option Track * Mixer) :=
  match source_list m !! cur_channel m with
  | None => IndexError
  | Some source =>
    match source_positions m !! cur_channel m with
    | None => IndexError
    | Some position =>
      if length source <=? position then Done (None, m)
      else
        match source !! position with
        | None => IndexError
        | Some track =>
          Done (Some track,
                set_source_positions m
                  (<[cur_channel m := position + 1]> (source_positions m)))
        end
    end
  end.

(** [Mixer.good_candidate] (lines 157-164). *)
Definition good_candidate (m : Mixer) (track : Track) : bool :=
  if dedup m && bool_decide (track_id track ∈ track_history m) then false
  else if bool_decide (artist_id track ∈ artist_history m) then false
  else true.

(** [Mixer.prep] (lines 166-168). *)
Definition prep (m : Mixer) : Mixer :=
  if negb (prepped m) then set_prepped m true else m.

(** The guard of the [while] loop of [next_track] (line 115). *)
Definition loop_guard (m : Mixer) : bool :=
  (0 <? length (source_list m)) &&
  (Z.of_nat (size (track_history m)) <? max_tracks m)%Z.

(** One pass through the loop body after the fail-fast test (lines 118-131):
    fetch a candidate from the current channel and accept or reject it.
    [Done (Some t, m')] is the accepted candidate, whose [track_id] the call
    returns; [Done (None, m')] is a failed attempt, after which the loop
    continues with one more consecutive failure.  The channel has been
    advanced in [m'] in both cases. *)
Definition attempt (m : Mixer) : outcome (option Track * Mixer) :=
  match get_next_candidate m with
  | Done (None, m1) => Done (None, next_channel m1)
  | Done (Some candidate_track, m1) =>
    if good_candidate m1 candidate_track
    then Done (Some candidate_track, next_channel (add_to_history m1 candidate_track))
    else Done (None, next_channel m1)
  | IndexError => IndexError
  | Timeout => Timeout
  end.

(** The [while] loop of [next_track] (lines 115-132), with
    [consecutive_fails] as an argument.  The result carries the accepted
    candidate; [next_track] returns its [track_id]. *)
Fixpoint next_track_loop (fuel : nat) (m : Mixer) (consecutive_fails : nat)
    : outcome (option Track * Mixer) :=
  if negb (loop_guard m) then Done (None, m)
  else if fail_fast m && (length (source_list m) <=? consecutive_fails)
  then Done (None, m)
  else
    match fuel with
    | O => Timeout
    | S fuel' =>
      match attempt m with
      | Done (Some candidate_track, m') => Done (Some candidate_track, m')
      | Done (None, m') => next_track_loop fuel' m' (S consecutive_fails)
      | IndexError => IndexError
      | Timeout => Timeout
      end
    end.

(** [Mixer.next_track] (lines 112-132), keeping the whole accepted
    candidate. *)
Definition next_track_candidate (fuel : nat) (m : Mixer)
    : outcome (option Track * Mixer) :=
  next_track_loop fuel (prep m) 0.

(** [Mixer.next_track] as the caller sees it: the [track_id] of the accepted
    candidate, or [None]. *)
Definition next_track (fuel : nat) (m : Mixer) : outcome (option string * Mixer) :=
  match next_track_candidate fuel m with
  | Done (r, m') => Done (track_id <$> r, m')
  | IndexError => IndexError
  | Timeout => Timeout
  end.

(** [n] successive calls of [next_track] on the same mixer, each with [fuel];
    the list holds what each call accepted, in call order. *)
Fixpoint calls (fuel n : nat) (m : Mixer) : outcome (list (option Track) * Mixer) :=
  match n with
  | O => Done ([], m)
  | S n' =>
    match next_track_candidate fuel m with
    | Done (r, m') =>
      match calls fuel n' m' with
      | Done (rs, m'') => Done (r :: rs, m'')
      | IndexError => IndexError
      | Timeout => Timeout
      end
    | IndexError => IndexError
    | Timeout => Timeout
    end
  end.

(** The values the calls returned, and the tracks they emitted. *)
Definition returned (rs : list (option Track)) : list (option string) :=
  (λ r : option Track, track_id <$> r) <$> rs.

Definition emitted (rs : list (option Track)) : list Track :=
  omap id rs.

Definition emitted_ids (rs : list (option Track)) : list string :=
  track_id <$> emitted rs.

Definition emitted_artists (rs : list (option Track)) : list string :=
  artist_id <$> emitted rs.

(** The loop of [mix_tracks] (lines 176-183); [rounds] bounds the number of
    [next_track] calls. *)
Fixpoint mix_loop (fuel rounds : nat) (mixer : Mixer) (mixed_tracks : list string)
    : outcome (list string) :=
  match rounds with
  | O => Timeout
  | S rounds' =>
    match next_track fuel mixer with
    | Done (None, _) => Done mixed_tracks
    | Done (Some tid, mixer') =>
      let mixed_tracks' := mixed_tracks ++ [tid] in
      if (max_tracks mixer <=? Z.of_nat (length mixed_tracks'))%Z
      then Done mixed_tracks'
      else mix_loop fuel rounds' mixer' mixed_tracks'
    | IndexError => IndexError
    | Timeout => Timeout
    end
  end.

(** [mix_tracks] (lines 171-185). *)
Definition mix_tracks (fuel rounds : nat) (sources : list (list Track))
    (dd : bool) (sep : Z) (ff : bool) (maxt : Z) : outcome (list string) :=
  mix_loop fuel rounds (init sources dd sep ff maxt) [].

(** ** Concrete mixers used below *)

Definition A1 : Track := mkTrack "A1" "a".
Definition A2 : Track := mkTrack "A2" "a".
Definition B1 : Track := mkTrack "B1" "b".
Definition C1t : Track := mkTrack "C1" "c".

Definition X1 : Track := mkTrack "X" "a".
Definition X2 : Track := mkTrack "X" "b".
Definition X3 : Track := mkTrack "X" "c".

(** The two-source scenario of the design document. *)
Definition scenario1 : Mixer := init [[A1; A2]; [B1]] true 4 true 10.

(** The mixer over the single source [[A1]] after its one track is out. *)
Definition spent_mixer : Mixer :=
  mkMixer [[A1]] true 4 false 1000 {[ "A1" ]} ["a"] 0 true [1].

(** ** Configuration and shape of the state *)

(** The constructor arguments are never written after [__init__]. *)
Record same_config (m m' : Mixer) : Prop := {
  sc_sources : source_list m' = source_list m;
  sc_dedup : dedup m' = dedup m;
  sc_sep : min_artist_separation m' = min_artist_separation m;
  sc_fail_fast : fail_fast m' = fail_fast m;
  sc_max : max_tracks m' = max_tracks m
}.

(** One cursor per source, and the channel index inside the source list. *)
Record wf (m : Mixer) : Prop := {
  wf_positions : length (source_positions m) = length (source_list m);
  wf_channel : 0 < length (source_list m) → cur_channel m < length (source_list m)
}.

(** What one pass through the loop body does, case by case. *)
Inductive attempt_spec (m : Mixer) : option Track → Mixer → Prop :=
  | attempt_exhausted source position :
      source_list m !! cur_channel m = Some source →
      source_positions m !! cur_channel m = Some position →
      length source ≤ position →
      attempt_spec m None (next_channel m)
  | attempt_rejected source position track :
      source_list m !! cur_channel m = Some source →
      source_positions m !! cur_channel m = Some position →
      source !! position = Some track →
      good_candidate m track = false →
      attempt_spec m None
        (next_channel (set_source_positions m
           (<[cur_channel m := position + 1]> (source_positions m))))
  | attempt_accepted source position track :
      source_list m !! cur_channel m = Some source →
      source_positions m !! cur_channel m = Some position →
      source !! position = Some track →
      good_candidate m track = true →
      attempt_spec m (Some track)
        (next_channel (add_to_history (set_source_positions m
           (<[cur_channel m := position + 1]> (source_positions m))) track)).

(** The emitted tracks [es] (oldest first) explain the two histories. *)
Definition separated (k : nat) (arts : list string) : Prop :=
  ∀ i j a, i < j → j ≤ i + k →
    arts !! i = Some a → arts !! j = Some a → False.

Record history_inv (m : Mixer) (es : list Track) : Prop := {
  hi_tracks : track_history m = list_to_set (track_id <$> es);
  hi_nodup : dedup m = true → NoDup (track_id <$> es);
  hi_artists : (0 < min_artist_separation m)%Z →
    artist_history m =
      drop (length es - Z.to_nat (min_artist_separation m)) (artist_id <$> es);
  hi_separated : (0 < min_artist_separation m)%Z →
    separated (Z.to_nat (min_artist_separation m)) (artist_id <$> es)
}.

(** The next [n] calls each emit a track on their first attempt: no channel is
    found exhausted and no candidate is rejected. *)
Fixpoint rejection_free (n : nat) (m : Mixer) : bool :=
  match n with
  | O => true
  | S n' =>
    loop_guard (prep m) &&
    match attempt (prep m) with
    | Done (Some _, m') => rejection_free n' m'
    | _ => false
    end
  end.

(** Every source has been read to its end. *)
Definition all_exhausted (m : Mixer) : Prop :=
  ∀ i source position,
    source_list m !! i = Some source →
    source_positions m !! i = Some position →
    length source ≤ position.

(** The number of distinct ids in [track_history] stays within the cap. *)
Definition within_cap (m : Mixer) : Prop :=
  (Z.of_nat (size (track_history m)) ≤ Z.max 0 (max_tracks m))%Z.

(** Track references read so far, track references in all the sources, and
    the cursor invariant [cursor[i] <= len(source[i])]. *)
Definition consumed (m : Mixer) : nat := sum_list (source_positions m).

Definition total_tracks (sources : list (list Track)) : nat :=
  sum_list (length <$> sources).

Definition cursors_ok (m : Mixer) : Prop :=
  Forall2 (λ position (source : list Track), position ≤ length source)
          (source_positions m) (source_list m).

(** The states a mixer built by [init] can be in, between calls or in the
    middle of the loop. *)
Inductive reachable (m0 : Mixer) : Mixer → Prop :=
  | reach_init : reachable m0 m0
  | reach_prep m : reachable m0 m → reachable m0 (prep m)
  | reach_attempt m r m' :
      reachable m0 m → loop_guard m = true → attempt m = Done (r, m') →
      reachable m0 m'.

(** * The catalog-facing code

    The functions around the mixer talk to the streaming service through
    [spotifyObject].  A request is modelled by a function argument that gives
    the response ([results["items"]], [response["tracks"]], ...); a random
    draw is an argument as well.  Progress bars and prints are left out. *)

(** ** Batches ([for i in range(0, len(xs), limit): xs[i : i + limit]]) *)

(** [range(0, stop, step)] for a positive [step]. *)
Definition py_range_step (stop step : nat) : list nat :=
  (λ k, k * step) <$> seq 0 ((stop + step - 1) / step).

(** The slice [l[i:j]] for [0 <= i <= j]. *)
Definition py_slice {A : Type} (i j : nat) (l : list A) : list A :=
  take (j - i) (drop i l).

Definition batches {A : Type} (limit : nat) (xs : list A) : list (list A) :=
  (λ i, py_slice i (i + limit) xs) <$> py_range_step (length xs) limit.

(** [total_batches] of [add_tracks_to_playlist] (spotify_mixer.py, line 82). *)
Definition total_batches (track_ids : list string) : nat :=
  (length track_ids + 100 - 1) / 100.

(** [add_tracks_to_playlist] (spotify_mixer.py, lines 79-88): the [items]
    argument of each [playlist_add_items] request, in order.  The same loop
    sends the tracks in [create_playlist_and_add_tracks] (extend_playlist.py,
    lines 251-256) and in shuffle_script.py (lines 64-69). *)
Definition add_tracks_to_playlist (track_ids : list string) : list (list string) :=
  batches 100 track_ids.

(** ** Paging *)

Record Playlist := mkPlaylist {
  playlist_name : string;
  playlist_id : string
}.

(** A service that serves consecutive pages of one fixed list. *)
Definition serves_pages {A : Type} (all : list A) (request : nat → nat → list A) : Prop :=
  ∀ limit offset, request limit offset = take limit (drop offset all).



(** [random.choice(seq)] on a non-empty [seq], for the random number [draw]. *)
Definition random_choice {A : Type} (draw : nat) (seq : list A) : option A :=
  seq !! (draw mod length seq).

(** [get_playlist_by_name] (spotify_mixer.py, lines 42-49). *)
Definition get_playlist_by_name (draw : nat) (playlists : list Playlist)
    (names : list string) : option Playlist :=
  let selected_playlists := filter (λ p, playlist_name p ∈ names) playlists in
  match selected_playlists with
  | [] => None
  | _ :: _ => random_choice draw selected_playlists
  end.

(** What [playlist_items] returns for
    [fields="items(track(id,artists(id))),total"]: the track of an item can
    be [None], and so can an id. *)
Record ApiArtist := mkApiArtist {
  api_artist_id : option string
}.

Record ApiTrack := mkApiTrack {
  api_track_id : option string;
  api_artists : list ApiArtist
}.

Record ApiItem := mkApiItem {
  item_track : option ApiTrack
}.

(** Python truth of a string or [None]. *)
Definition truthy (o : option string) : bool :=
  match o with
  | Some s => negb (String.eqb s "")
  | None => false
  end.

(** The body of [for item in items] in [get_playlist_tracks]
    (spotify_mixer.py, lines 64-70): the track appended for [item], if any. *)
Definition track_of_item (item : ApiItem) : option Track :=
  match item_track item with
  | None => None
  | Some track =>
    let tid := api_track_id track in
    let aid :=
      match api_artists track with
      | [] => None
      | artist :: _ => api_artist_id artist
      end in
    if truthy tid && truthy aid
    then match tid, aid with
         | Some t, Some a => Some (mkTrack t a)
         | _, _ => None
         end
    else None
  end.

(** [get_playlist_tracks] (spotify_mixer.py, lines 52-76);
    [playlist_items limit offset] is [results["items"]]. *)
Fixpoint get_playlist_tracks_loop (fuel : nat)
    (playlist_items : nat → nat → list ApiItem)
    (offset : nat) (tracks : list Track) : outcome (list Track) :=
  match fuel with
  | O => Timeout
  | S fuel' =>
    let items := playlist_items 100 offset in
    let tracks' := tracks ++ omap track_of_item items in
    if length items <? 100 then Done tracks'
    else get_playlist_tracks_loop fuel' playlist_items (offset + 100) tracks'
  end.

Definition get_playlist_tracks (fuel : nat)
    (playlist_items : nat → nat → list ApiItem) : outcome (list Track) :=
  get_playlist_tracks_loop fuel playlist_items 0 [].

(** ** Recommendations (extend_playlist.py) *)

(** The popularity window of [generate_recommendations] (lines 157-160) for
    [p100 = int(criteria["popularity"] * 100)]. *)
Definition popularity_range (p100 : Z) : Z * Z :=
  let min_popularity := Z.max (p100 - 20) 0 in
  let max_popularity := Z.min (p100 + 20) 100 in
  if (max_popularity <? min_popularity)%Z
  then (max_popularity, min_popularity)
  else (min_popularity, max_popularity).

(** One entry of [seed_combinations]: a dict with the keys ["seed_tracks"]
    and ["seed_artists"], either of which can be missing. *)
Record Seeds := mkSeeds {
  seed_tracks : option (list string);
  seed_artists : option (list string)
}.

(** The seed combinations of [generate_recommendations] (lines 163-182); the
    two [random.shuffle] calls are the functions [shuffle_tracks] and
    [shuffle_artists].  The empty list is the case in which the function
    returns [[]] at once. *)
Definition seed_combinations (shuffle_tracks shuffle_artists : list string → list string)
    (seed_tracks0 seed_artists0 : list string) : list Seeds :=
  let st := shuffle_tracks (take 5 seed_tracks0) in
  let sa := shuffle_artists (take 5 seed_artists0) in
  let combos :=
    i ← seq 0 (min (length st) 2);
    j ← seq 0 (min (length sa) 2);
    [mkSeeds (Some (py_slice i (i + 3) st)) (Some (py_slice j (j + 2) sa))] in
  match combos with
  | _ :: _ => combos
  | [] =>
    match st, sa with
    | _ :: _, _ => [mkSeeds (Some (take 5 st)) None]
    | [], _ :: _ => [mkSeeds None (Some (take 5 sa))]
    | [], [] => []
    end
  end.

(** How many seeds one request carries. *)
Definition seed_count (seeds : Seeds) : nat :=
  length (default [] (seed_tracks seeds)) + length (default [] (seed_artists seeds)).

(** The [for track in response["tracks"]] loop (lines 217-225), with its
    [break] at the limit. *)
Fixpoint collect_tracks (limit : Z) (original_track_ids_set : gset string)
    (tracks : list string) (recommendations : list string)
    (fetched_tracks : gset string) : list string * gset string :=
  match tracks with
  | [] => (recommendations, fetched_tracks)
  | tid :: rest =>
    if bool_decide (tid ∉ fetched_tracks) &&
       bool_decide (tid ∉ original_track_ids_set)
    then
      let fetched_tracks' := fetched_tracks ∪ {[ tid ]} in
      let recommendations' := recommendations ++ [tid] in
      if (limit <=? Z.of_nat (length recommendations'))%Z
      then (recommendations', fetched_tracks')
      else collect_tracks limit original_track_ids_set rest
             recommendations' fetched_tracks'
    else collect_tracks limit original_track_ids_set rest
           recommendations fetched_tracks
  end.

(** The [while] loop of [generate_recommendations] (lines 190-234).
    [recommend call seeds lim] is the response to request number [call] with
    these seeds and [params["limit"] = lim]: [None] for a
    [SpotifyException], else the ids of [response["tracks"]] (the numeric
    ranges are the same in every request).  [shuffle call] is the
    [random.shuffle] of the seed combinations. *)
Fixpoint recommend_loop (fuel call : nat)
    (recommend : nat → Seeds → Z → option (list string))
    (shuffle : nat → list Seeds → list Seeds)
    (limit : Z) (original_track_ids_set : gset string)
    (seed_combos : list Seeds) (combination_index : nat)
    (recommendations : list string) (fetched_tracks : gset string)
    (total_requested : Z) : outcome (list string) :=
  if (Z.of_nat (length recommendations) <? limit)%Z &&
     (total_requested <? 10000)%Z
  then
    match fuel with
    | O => Timeout
    | S fuel' =>
      let '(combination_index, seed_combos) :=
        if length seed_combos <=? combination_index
        then (0, shuffle call seed_combos)
        else (combination_index, seed_combos) in
      match seed_combos !! combination_index with
      | None => IndexError
      | Some seeds =>
        let combination_index := combination_index + 1 in
        let lim := Z.min 100 (limit - Z.of_nat (length recommendations)) in
        match recommend call seeds lim with
        | None => Done recommendations
        | Some tracks =>
          let '(recommendations', fetched_tracks') :=
            collect_tracks limit original_track_ids_set tracks
              recommendations fetched_tracks in
          let total_requested' := (total_requested + lim)%Z in
          match tracks with
          | [] => Done recommendations'
          | _ :: _ =>
            recommend_loop fuel' (S call) recommend shuffle limit
              original_track_ids_set seed_combos combination_index
              recommendations' fetched_tracks' total_requested'
          end
        end
      end
    end
  else Done recommendations.

(** [generate_recommendations] (lines 137-237). *)
Definition generate_recommendations (fuel : nat)
    (recommend : nat → Seeds → Z → option (list string))
    (shuffle_tracks shuffle_artists : list string → list string)
    (shuffle : nat → list Seeds → list Seeds)
    (seed_tracks0 seed_artists0 original_track_ids : list string)
    (limit : Z) : outcome (list string) :=
  match seed_combinations shuffle_tracks shuffle_artists
          seed_tracks0 seed_artists0 with
  | [] => Done []
  | seed_combos =>
    recommend_loop fuel 0 recommend shuffle limit
      (list_to_set original_track_ids) seed_combos 0 [] ∅ 0
  end.

(** * Properties *)

(** ** Elementary facts *)

Lemma mixer_eq (m m' : Mixer) :
  same_config m m' →
  track_history m' = track_history m →
  artist_history m' = artist_history m →
  cur_channel m' = cur_channel m →
  prepped m' = prepped m →
  source_positions m' = source_positions m →
  m' = m.
Proof.
  intros [H1 H2 H3 H4 H5] H6 H7 H8 H9 H10.
  destruct m, m'; simpl in *; congruence.
Qed.

Lemma same_config_refl m : same_config m m.
Proof. by split. Qed.

Lemma same_config_trans m1 m2 m3 :
  same_config m1 m2 → same_config m2 m3 → same_config m1 m3.
Proof. intros [] []; split; congruence. Qed.

Lemma prep_config m : same_config m (prep m).
Proof. unfold prep; destruct (prepped m); by split. Qed.

Lemma prep_idemp m : prep (prep m) = prep m.
Proof. unfold prep. by destruct m as [? ? ? ? ? ? ? ? [] ?]. Qed.

Lemma prep_wf m : wf m → wf (prep m).
Proof. unfold prep; destruct (prepped m); intros []; by split. Qed.

Lemma prep_history m es : history_inv m es → history_inv (prep m) es.
Proof. unfold prep; destruct (prepped m); intros []; by split. Qed.

Lemma init_wf sources dd sep ff maxt : wf (init sources dd sep ff maxt).
Proof. split; simpl; [by rewrite length_fmap | done]. Qed.

Lemma init_history sources dd sep ff maxt :
  history_inv (init sources dd sep ff maxt) [].
Proof.
  split; simpl; try done; intros _; constructor.
Qed.

(** [next_channel] is [+1 mod N] on a channel index in range. *)
Lemma next_channel_mod m :
  cur_channel m < length (source_list m) →
  cur_channel (next_channel m) = (cur_channel m + 1) mod length (source_list m).
Proof.
  intros Hc. unfold next_channel; simpl.
  destruct (Nat.leb_spec (length (source_list m)) (cur_channel m + 1)).
  - assert (cur_channel m + 1 = length (source_list m)) as -> by lia.
    by rewrite Nat.Div0.mod_same.
  - by rewrite Nat.mod_small.
Qed.

Lemma next_channel_lt m :
  0 < length (source_list m) →
  cur_channel (next_channel m) < length (source_list m).
Proof.
  intros HN. unfold next_channel; simpl.
  destruct (Nat.leb_spec (length (source_list m)) (cur_channel m + 1)); lia.
Qed.

Lemma attempt_inv m r m' : attempt m = Done (r, m') → attempt_spec m r m'.
Proof.
  unfold attempt, get_next_candidate.
  destruct (source_list m !! cur_channel m) as [source|] eqn:Hs; [|done].
  destruct (source_positions m !! cur_channel m) as [position|] eqn:Hp; [|done].
  destruct (Nat.leb_spec (length source) position) as [Hle|Hlt].
  - intros [= <- <-]. by eapply attempt_exhausted.
  - destruct (source !! position) as [track|] eqn:Ht; [|done].
    destruct (good_candidate _ track) eqn:Hg; intros [= <- <-].
    + by eapply attempt_accepted.
    + by eapply attempt_rejected.
Qed.

(** Inside the loop the attempt never raises. *)
Lemma attempt_done m :
  wf m → 0 < length (source_list m) → ∃ r m', attempt m = Done (r, m').
Proof.
  intros [Hp Hc] HN. specialize (Hc HN).
  unfold attempt, get_next_candidate.
  destruct (lookup_lt_is_Some_2 (source_list m) _ Hc) as [source ->].
  rewrite <- Hp in Hc.
  destruct (lookup_lt_is_Some_2 (source_positions m) _ Hc) as [position ->].
  destruct (Nat.leb_spec (length source) position) as [Hle|Hlt]; [by eauto|].
  destruct (lookup_lt_is_Some_2 source _ Hlt) as [track ->].
  destruct (good_candidate _ track); eauto.
Qed.

Lemma attempt_config m r m' : attempt m = Done (r, m') → same_config m m'.
Proof. intros H%attempt_inv. destruct H; by split. Qed.

Lemma attempt_wf m r m' :
  wf m → 0 < length (source_list m) → attempt m = Done (r, m') → wf m'.
Proof.
  intros [Hp Hc] HN H%attempt_inv.
  destruct H; split; simpl; rewrite ?length_insert; try done;
    intros _; by apply (next_channel_lt m).
Qed.

Lemma attempt_channel m r m' :
  cur_channel m < length (source_list m) →
  attempt m = Done (r, m') →
  cur_channel m' = (cur_channel m + 1) mod length (source_list m).
Proof.
  intros Hc H%attempt_inv.
  destruct H; by rewrite <- (next_channel_mod m Hc).
Qed.

(** A failed attempt leaves the histories and [prepped] alone, and never
    moves a cursor backwards. *)
Lemma attempt_failed m m' :
  attempt m = Done (None, m') →
  track_history m' = track_history m ∧
  artist_history m' = artist_history m ∧
  prepped m' = prepped m.
Proof. intros H%attempt_inv. by inversion H. Qed.

(** ** The histories after an emission *)

Lemma py_slice_from_neg {A : Type} (k : Z) (l : list A) :
  (0 < k)%Z → py_slice_from (- k)%Z l = drop (length l - Z.to_nat k) l.
Proof.
  intros Hk. unfold py_slice_from.
  destruct (Z.ltb_spec (- k) 0) as [_|]; [|lia].
  f_equal. lia.
Qed.

Lemma py_slice_from_zero {A : Type} (l : list A) : py_slice_from (- 0)%Z l = l.
Proof. unfold py_slice_from; simpl. by rewrite Z.min_l by lia. Qed.

(** With a positive separation the window keeps the last [k] artists. *)
Lemma add_to_history_artists m track :
  (0 < min_artist_separation m)%Z →
  artist_history (add_to_history m track) =
    drop (length (artist_history m) + 1 - Z.to_nat (min_artist_separation m))
         (artist_history m ++ [artist_id track]).
Proof.
  intros Hk. unfold add_to_history; simpl.
  rewrite length_app; simpl.
  destruct (Z.ltb_spec (min_artist_separation m)
              (Z.of_nat (length (artist_history m) + 1))) as [Hlt|Hge].
  - rewrite py_slice_from_neg by done. by rewrite length_app.
  - replace (length (artist_history m) + 1 - _) with 0 by lia. done.
Qed.

(** With separation 0 the slice [artist_history[-0:]] is the whole list:
    nothing is ever evicted. *)
Lemma add_to_history_artists_zero m track :
  min_artist_separation m = 0%Z →
  artist_history (add_to_history m track) = artist_history m ++ [artist_id track].
Proof.
  intros Hk. unfold add_to_history; simpl. rewrite Hk.
  rewrite py_slice_from_zero. by destruct (_ <? _)%Z.
Qed.

Lemma good_candidate_true m track :
  good_candidate m track = true →
  (dedup m = true → track_id track ∉ track_history m) ∧
  artist_id track ∉ artist_history m.
Proof.
  unfold good_candidate. intros H. split.
  - intros Hd. rewrite Hd in H; simpl in H.
    destruct (decide (track_id track ∈ track_history m)) as [Hin|Hin]; [|done].
    by rewrite bool_decide_eq_true_2 in H.
  - destruct (dedup m && _); [done|].
    destruct (decide (artist_id track ∈ artist_history m)) as [Hin|Hin]; [|done].
    by rewrite bool_decide_eq_true_2 in H.
Qed.

Lemma window_snoc (k : nat) (arts : list string) (a : string) :
  drop (length (drop (length arts - k) arts) + 1 - k)
       (drop (length arts - k) arts ++ [a]) =
  drop (length (arts ++ [a]) - k) (arts ++ [a]).
Proof.
  rewrite <- drop_app_le by lia.
  rewrite drop_drop, length_drop, length_app. simpl.
  f_equal. lia.
Qed.

Lemma separated_snoc (k : nat) (arts : list string) (a : string) :
  separated k arts →
  a ∉ drop (length arts - k) arts →
  separated k (arts ++ [a]).
Proof.
  intros Hsep Hnot i j b Hij Hk Hi Hj.
  assert (j < length (arts ++ [a])) as Hjlen by (by eapply lookup_lt_Some).
  rewrite length_app in Hjlen; simpl in Hjlen.
  rewrite lookup_app_l in Hi by lia.
  destruct (decide (j < length arts)) as [Hlt|Hge].
  - rewrite lookup_app_l in Hj by done. by apply (Hsep i j b).
  - assert (j = length arts) as -> by lia.
    rewrite lookup_app_r, Nat.sub_diag in Hj by lia.
    injection Hj as <-.
    apply Hnot. apply list_elem_of_lookup.
    exists (i - (length arts - k)). rewrite lookup_drop.
    by replace (length arts - k + (i - (length arts - k))) with i by lia.
Qed.

(** [good_candidate] does not look at the cursors. *)
Lemma history_inv_positions m ps es :
  history_inv m es → history_inv (set_source_positions m ps) es.
Proof. intros []; by split. Qed.

Lemma history_inv_channel m es :
  history_inv m es → history_inv (next_channel m) es.
Proof. intros []; by split. Qed.

Lemma add_to_history_inv m track es :
  history_inv m es →
  good_candidate m track = true →
  history_inv (add_to_history m track) (es ++ [track]).
Proof.
  intros [Ht Hn Ha Hs] [Hfresh Hart]%good_candidate_true.
  split.
  - simpl. rewrite Ht, fmap_app. simpl. by rewrite list_to_set_snoc_L.
  - simpl. intros Hd. rewrite fmap_app. apply NoDup_app.
    split; [by auto|]. split; [|apply NoDup_singleton].
    intros x Hx [->|[]%elem_of_nil]%elem_of_cons.
    apply (Hfresh Hd). rewrite Ht. by apply elem_of_list_to_set.
  - intros Hk. rewrite add_to_history_artists by done.
    simpl in Hk. rewrite (Ha Hk).
    rewrite fmap_app; simpl.
    rewrite <- (length_fmap artist_id es), <- (length_fmap artist_id (es ++ [track])).
    rewrite fmap_app; simpl. apply window_snoc.
  - simpl. intros Hk. rewrite fmap_app; simpl.
    apply separated_snoc; [by auto|].
    rewrite length_fmap, <- (Ha Hk). done.
Qed.

Lemma attempt_history m r m' es :
  history_inv m es →
  attempt m = Done (r, m') →
  history_inv m' (es ++ option_list r).
Proof.
  intros Hinv H%attempt_inv.
  destruct H; simpl; rewrite ?app_nil_r.
  - by apply history_inv_channel.
  - by apply history_inv_channel, history_inv_positions.
  - apply history_inv_channel, add_to_history_inv; [|done].
    by apply history_inv_positions.
Qed.

(** ** The loop of [next_track] *)

Lemma next_track_loop_eq fuel m cf :
  next_track_loop fuel m cf =
    if negb (loop_guard m) then Done (None, m)
    else if fail_fast m && (length (source_list m) <=? cf)
    then Done (None, m)
    else
      match fuel with
      | O => Timeout
      | S fuel' =>
        match attempt m with
        | Done (Some candidate_track, m') => Done (Some candidate_track, m')
        | Done (None, m') => next_track_loop fuel' m' (S cf)
        | IndexError => IndexError
        | Timeout => Timeout
        end
      end.
Proof. by destruct fuel. Qed.

Lemma loop_guard_sources m : loop_guard m = true → 0 < length (source_list m).
Proof.
  unfold loop_guard. intros [H _]%andb_true_iff. by apply Nat.ltb_lt in H.
Qed.

Lemma loop_guard_failed m m' :
  attempt m = Done (None, m') → loop_guard m' = loop_guard m.
Proof.
  intros H. destruct (attempt_failed _ _ H) as (Ht & _ & _).
  destruct (attempt_config _ _ _ H) as [Hs _ _ _ Hm].
  unfold loop_guard. by rewrite Ht, Hs, Hm.
Qed.

(** Case analysis on one unfolding of the loop. *)
Ltac loop_cases m cf fuel :=
  rewrite (next_track_loop_eq fuel m cf);
  let Hg := fresh "Hguard" in
  let Hf := fresh "Hff" in
  destruct (loop_guard m) eqn:Hg; simpl negb; cbv iota;
  [destruct (fail_fast m && (length (source_list m) <=? cf)) eqn:Hf|].

Lemma next_track_loop_config fuel : ∀ m cf r m',
  next_track_loop fuel m cf = Done (r, m') → same_config m m'.
Proof.
  induction fuel as [|fuel IH]; intros m cf r m';
    loop_cases m cf (@O) || loop_cases m cf (S fuel);
    try (intros [= <- <-]; by apply same_config_refl); try done.
  destruct (attempt m) as [[[t|] m1]| |] eqn:Ha; try done.
  - intros [= <- <-]. by eapply attempt_config.
  - intros Hloop. eauto using same_config_trans, attempt_config.
Qed.

Lemma next_track_loop_wf fuel : ∀ m cf r m',
  wf m → next_track_loop fuel m cf = Done (r, m') → wf m'.
Proof.
  induction fuel as [|fuel IH]; intros m cf r m' Hwf;
    loop_cases m cf (@O) || loop_cases m cf (S fuel);
    try (by intros [= <- <-]); try done.
  pose proof (loop_guard_sources _ Hguard) as HN.
  destruct (attempt m) as [[[t|] m1]| |] eqn:Ha; try done.
  - intros [= <- <-]. by eapply attempt_wf.
  - intros Hloop. eauto using attempt_wf.
Qed.

Lemma next_track_loop_history fuel : ∀ m cf r m' es,
  history_inv m es →
  next_track_loop fuel m cf = Done (r, m') →
  history_inv m' (es ++ option_list r).
Proof.
  induction fuel as [|fuel IH]; intros m cf r m' es Hinv;
    loop_cases m cf (@O) || loop_cases m cf (S fuel);
    try (intros [= <- <-]; simpl; by rewrite app_nil_r); try done.
  destruct (attempt m) as [[[t|] m1]| |] eqn:Ha; try done.
  - intros [= <- <-]. by apply (attempt_history _ _ _ es Hinv Ha).
  - intros Hloop.
    pose proof (attempt_history _ _ _ es Hinv Ha) as Hinv1.
    simpl in Hinv1; rewrite app_nil_r in Hinv1. eauto.
Qed.

(** From a well-formed state the loop never indexes out of range. *)
Lemma next_track_loop_no_raise fuel : ∀ m cf,
  wf m → next_track_loop fuel m cf ≠ IndexError.
Proof.
  induction fuel as [|fuel IH]; intros m cf Hwf;
    loop_cases m cf (@O) || loop_cases m cf (S fuel); try done.
  pose proof (loop_guard_sources _ Hguard) as HN.
  destruct (attempt_done m Hwf HN) as (r & m1 & Ha). rewrite Ha.
  destruct r; [done|]. eauto using attempt_wf.
Qed.

(** More fuel does not change a result. *)
Lemma next_track_loop_fuel fuel : ∀ fuel' m cf x,
  fuel ≤ fuel' →
  next_track_loop fuel m cf = Done x →
  next_track_loop fuel' m cf = Done x.
Proof.
  induction fuel as [|fuel IH]; intros fuel' m cf x Hle;
    rewrite (next_track_loop_eq fuel' m cf);
    loop_cases m cf (@O) || loop_cases m cf (S fuel); try done.
  destruct fuel' as [|fuel']; [lia|].
  destruct (attempt m) as [[[t|] m1]| |]; try done.
  apply IH. lia.
Qed.

(** With [fail_fast] the loop runs at most once per source: [N] units of
    fuel are always enough. *)
Lemma next_track_loop_fail_fast fuel : ∀ m cf,
  wf m → fail_fast m = true →
  length (source_list m) ≤ cf + fuel →
  ∃ r m', next_track_loop fuel m cf = Done (r, m').
Proof.
  induction fuel as [|fuel IH]; intros m cf Hwf Hff Hfuel;
    loop_cases m cf (@O) || loop_cases m cf (S fuel); eauto.
  - rewrite Hff in Hff0; simpl in Hff0. apply Nat.leb_gt in Hff0. lia.
  - pose proof (loop_guard_sources _ Hguard) as HN.
    destruct (attempt_done m Hwf HN) as (r & m1 & Ha). rewrite Ha.
    destruct r; [by eauto|].
    destruct (attempt_config _ _ _ Ha) as [Hs _ _ Hf _].
    apply IH; [by eapply attempt_wf | congruence | rewrite Hs; lia].
Qed.

(** ** Sequences of calls *)

Lemma emitted_cons r rs : emitted (r :: rs) = option_list r ++ emitted rs.
Proof. by destruct r. Qed.

Lemma calls_config fuel n : ∀ m rs m',
  calls fuel n m = Done (rs, m') → same_config m m'.
Proof.
  induction n as [|n IH]; intros m rs m'; simpl.
  - intros [= <- <-]. apply same_config_refl.
  - destruct (next_track_candidate fuel m) as [[r m1]| |] eqn:Hcall; try done.
    destruct (calls fuel n m1) as [[rs1 m2]| |] eqn:Hrest; try done.
    intros [= <- <-].
    eauto using same_config_trans, prep_config, next_track_loop_config.
Qed.

Lemma calls_wf fuel n : ∀ m rs m',
  wf m → calls fuel n m = Done (rs, m') → wf m'.
Proof.
  induction n as [|n IH]; intros m rs m' Hwf; simpl.
  - by intros [= <- <-].
  - destruct (next_track_candidate fuel m) as [[r m1]| |] eqn:Hcall; try done.
    destruct (calls fuel n m1) as [[rs1 m2]| |] eqn:Hrest; try done.
    intros [= <- <-].
    eauto using prep_wf, next_track_loop_wf.
Qed.

Lemma calls_history fuel n : ∀ m rs m' es,
  history_inv m es →
  calls fuel n m = Done (rs, m') →
  history_inv m' (es ++ emitted rs).
Proof.
  induction n as [|n IH]; intros m rs m' es Hinv; simpl.
  - intros [= <- <-]. by rewrite app_nil_r.
  - destruct (next_track_candidate fuel m) as [[r m1]| |] eqn:Hcall; try done.
    destruct (calls fuel n m1) as [[rs1 m2]| |] eqn:Hrest; try done.
    intros [= <- <-].
    rewrite emitted_cons, app_assoc.
    eauto using prep_history, next_track_loop_history.
Qed.

(** The invariants of a run that starts at a new mixer. *)
Lemma calls_init fuel n sources dd sep ff maxt rs m' :
  calls fuel n (init sources dd sep ff maxt) = Done (rs, m') →
  wf m' ∧ same_config (init sources dd sep ff maxt) m' ∧
  history_inv m' (emitted rs).
Proof.
  intros Hrun. split_and!.
  - eauto using calls_wf, init_wf.
  - eauto using calls_config.
  - apply (calls_history fuel n (init sources dd sep ff maxt) rs m' []);
      auto using init_history.
Qed.

(** No sequence of calls on a well-formed mixer raises [IndexError]. *)
Lemma calls_no_raise fuel n : ∀ m, wf m → calls fuel n m ≠ IndexError.
Proof.
  induction n as [|n IH]; intros m Hwf; simpl; [done|].
  destruct (next_track_candidate fuel m) as [[r m1]| |] eqn:Hcall; try done.
  - assert (wf m1) as Hwf1 by eauto using prep_wf, next_track_loop_wf.
    specialize (IH m1 Hwf1). by destruct (calls fuel n m1) as [[]| |].
  - by apply next_track_loop_no_raise in Hcall; [|apply prep_wf].
Qed.

(** With [fail_fast] every call returns, and [N] units of fuel suffice. *)
Lemma calls_fail_fast fuel n : ∀ m,
  wf m → fail_fast m = true → length (source_list m) ≤ fuel →
  ∃ rs m', calls fuel n m = Done (rs, m').
Proof.
  induction n as [|n IH]; intros m Hwf Hff Hfuel; simpl; [by eauto|].
  destruct (next_track_loop_fail_fast fuel (prep m) 0) as (r & m1 & Hcall).
  { by apply prep_wf. }
  { by rewrite (sc_fail_fast _ _ (prep_config m)). }
  { rewrite (sc_sources _ _ (prep_config m)). lia. }
  unfold next_track_candidate. rewrite Hcall.
  destruct (next_track_loop_config _ _ _ _ _ Hcall) as [Hs _ _ Hf _].
  destruct (prep_config m) as [Hs' _ _ Hf' _].
  destruct (IH m1) as (rs & m2 & ->); [by eauto using prep_wf, next_track_loop_wf|congruence|congruence|].
  eauto.
Qed.

(** ** History and emitted tracks *)

(** C10: after any sequence of [next_track] calls on a new mixer, whatever the
    configuration ([dedup] false included), [track_history] is exactly the
    set of the track ids returned so far. *)
Theorem track_history_is_emitted_set sources dd sep ff maxt fuel n rs m' :
  calls fuel n (init sources dd sep ff maxt) = Done (rs, m') →
  track_history m' = list_to_set (emitted_ids rs).
Proof.
  intros (_ & _ & [Ht _ _ _])%calls_init. exact Ht.
Qed.

Lemma track_history_is_emitted_set_witness :
  ∃ m', calls 1 2 (init [[X1; X2]] false 4 true 10) = Done ([Some X1; Some X2], m') ∧
        track_history m' = list_to_set (emitted_ids [Some X1; Some X2]).
Proof.
  eexists. split; [vm_compute; reflexivity|].
  apply (track_history_is_emitted_set [[X1; X2]] false 4 true 10 1 2).
  vm_compute; reflexivity.
Defined.

(** C6: with [dedup] on, the track ids returned by any sequence of
    [next_track] calls on a new mixer are pairwise distinct, and their number
    equals the size of [track_history]. *)
Theorem dedup_distinct sources sep ff maxt fuel n rs m' :
  calls fuel n (init sources true sep ff maxt) = Done (rs, m') →
  NoDup (emitted_ids rs) ∧
  length (emitted_ids rs) = size (track_history m').
Proof.
  intros (_ & [_ Hd _ _ _] & [Ht Hn _ _])%calls_init.
  simpl in Hd. specialize (Hn Hd). split; [exact Hn|].
  rewrite Ht. symmetry. by apply size_list_to_set.
Qed.

Lemma dedup_distinct_witness :
  ∃ m', calls 2 3 (init [[A1; A1; A2]; [B1; A1]] true 0 true 10)
          = Done ([Some A1; Some B1; None], m') ∧
        NoDup (emitted_ids [Some A1; Some B1; None]) ∧
        length (emitted_ids [Some A1; Some B1; None]) = size (track_history m').
Proof.
  eexists. split; [vm_compute; reflexivity|].
  apply (dedup_distinct [[A1; A1; A2]; [B1; A1]] 0 true 10 2 3).
  vm_compute; reflexivity.
Defined.

Lemma separated_window (k : nat) (arts : list string) (i : nat) :
  separated k arts → NoDup (take (k + 1) (drop i arts)).
Proof.
  intros Hsep. apply NoDup_alt. intros x y a.
  rewrite !lookup_take_Some, !lookup_drop.
  intros [Hx Hxk] [Hy Hyk].
  destruct (Nat.lt_trichotomy x y) as [Hlt|[Heq|Hgt]]; [|done|].
  - destruct (Hsep (i + x) (i + y) a); auto with lia.
  - destruct (Hsep (i + y) (i + x) a); auto with lia.
Qed.

(** C7: with [min_artist_separation = k > 0], no artist occurs twice in any
    [k + 1] consecutive emissions of a new mixer. *)
Theorem artist_separation sources dd k ff maxt fuel n rs m' :
  (0 < k)%Z →
  calls fuel n (init sources dd k ff maxt) = Done (rs, m') →
  ∀ i, NoDup (take (Z.to_nat k + 1) (drop i (emitted_artists rs))).
Proof.
  intros Hk (_ & [_ _ Hsep _ _] & [_ _ _ Hs])%calls_init i.
  simpl in Hsep. rewrite Hsep in Hs.
  by apply separated_window, Hs.
Qed.

Lemma artist_separation_witness :
  (0 < 1)%Z ∧
  ∃ m', calls 3 5 (init [[A1; A2; C1t]; [B1; X1]] true 1 true 10)
          = Done ([Some A1; Some B1; Some A2; Some C1t; None], m') ∧
        ∀ i, NoDup (take (Z.to_nat 1 + 1)
               (drop i (emitted_artists [Some A1; Some B1; Some A2; Some C1t; None]))).
Proof.
  split; [lia|]. eexists. split; [vm_compute; reflexivity|].
  eapply (artist_separation [[A1; A2; C1t]; [B1; X1]] true 1 true 10 3 5);
    [lia | vm_compute; reflexivity].
Defined.

(** ** Degenerate configurations *)

Lemma loop_guard_prep m : loop_guard (prep m) = loop_guard m.
Proof. unfold prep. by destruct (prepped m). Qed.

Lemma next_track_candidate_guard_false fuel m :
  loop_guard m = false → next_track_candidate fuel m = Done (None, prep m).
Proof.
  intros Hg. unfold next_track_candidate.
  rewrite next_track_loop_eq, loop_guard_prep, Hg. done.
Qed.

Lemma calls_guard_false fuel n : ∀ m,
  loop_guard m = false →
  ∃ m', calls fuel n m = Done (replicate n None, m').
Proof.
  induction n as [|n IH]; intros m Hg; simpl; [by eauto|].
  rewrite next_track_candidate_guard_false by done.
  destruct (IH (prep m)) as (m' & ->); [by rewrite loop_guard_prep|].
  eauto.
Qed.

(** C9: a mixer built with no sources, or with [max_tracks = 0], never
    raises: every [next_track] call returns [None] at once (no loop pass is
    needed, so any fuel will do), and [mix_tracks] returns the empty list. *)
Theorem degenerate_mixer_exhausted sources dd sep ff maxt :
  sources = [] ∨ maxt = 0%Z →
  ∀ fuel n,
    next_track fuel (init sources dd sep ff maxt)
      = Done (None, prep (init sources dd sep ff maxt)) ∧
    (∃ m', calls fuel n (init sources dd sep ff maxt)
             = Done (replicate n None, m')) ∧
    mix_tracks fuel (S n) sources dd sep ff maxt = Done [].
Proof.
  intros Hdeg fuel n.
  assert (loop_guard (init sources dd sep ff maxt) = false) as Hg.
  { unfold loop_guard; simpl. destruct Hdeg as [-> | ->]; [done|].
    apply andb_false_r. }
  assert (next_track fuel (init sources dd sep ff maxt)
          = Done (None, prep (init sources dd sep ff maxt))) as Hcall.
  { unfold next_track. by rewrite next_track_candidate_guard_false. }
  split_and!; [done | by apply calls_guard_false |].
  unfold mix_tracks. simpl. by rewrite Hcall.
Qed.

Lemma degenerate_mixer_exhausted_witness :
  ([[A1; A2]; [B1]] = [] ∨ 0%Z = 0%Z) ∧
  next_track 0 (init [[A1; A2]; [B1]] true 4 true 0)
    = Done (None, prep (init [[A1; A2]; [B1]] true 4 true 0)) ∧
  (∃ m', calls 0 3 (init [[A1; A2]; [B1]] true 4 true 0)
           = Done (replicate 3 None, m')) ∧
  mix_tracks 0 (S 3) [[A1; A2]; [B1]] true 4 true 0 = Done [].
Proof.
  split; [by right|].
  apply (degenerate_mixer_exhausted [[A1; A2]; [B1]] true 4 true 0).
  by right.
Defined.

(** ** Round-robin channel selection *)

Lemma reachable_config m0 m : reachable m0 m → same_config m0 m.
Proof.
  induction 1; eauto using same_config_refl, same_config_trans,
    prep_config, attempt_config.
Qed.

Lemma reachable_wf m0 m : wf m0 → reachable m0 m → wf m.
Proof.
  intros Hwf. induction 1; eauto using prep_wf, attempt_wf, loop_guard_sources.
Qed.

Lemma next_track_loop_reachable m0 fuel : ∀ m cf r m',
  reachable m0 m → next_track_loop fuel m cf = Done (r, m') → reachable m0 m'.
Proof.
  induction fuel as [|fuel IH]; intros m cf r m' Hreach;
    loop_cases m cf (@O) || loop_cases m cf (S fuel);
    try (by intros [= <- <-]); try done.
  destruct (attempt m) as [[[t|] m1]| |] eqn:Ha; try done.
  - intros [= <- <-]. by eapply reach_attempt.
  - intros Hloop. eapply IH; [|done]. by eapply reach_attempt.
Qed.

Lemma calls_reachable m0 fuel n : ∀ m rs m',
  reachable m0 m → calls fuel n m = Done (rs, m') → reachable m0 m'.
Proof.
  induction n as [|n IH]; intros m rs m' Hreach; simpl.
  - by intros [= <- <-].
  - destruct (next_track_candidate fuel m) as [[r m1]| |] eqn:Hcall; try done.
    destruct (calls fuel n m1) as [[rs1 m2]| |] eqn:Hrest; try done.
    intros [= <- <-].
    eauto using reach_prep, next_track_loop_reachable.
Qed.

Lemma rejection_free_first fuel m r m1 :
  loop_guard (prep m) = true →
  attempt (prep m) = Done (Some r, m1) →
  ∀ x, next_track_candidate fuel m = Done x → x = (Some r, m1).
Proof.
  intros Hg Ha x. unfold next_track_candidate.
  rewrite next_track_loop_eq, Hg. simpl.
  destruct (fail_fast (prep m)); simpl.
  - destruct (Nat.leb_spec (length (source_list (prep m))) 0) as [Hle|_].
    { apply loop_guard_sources in Hg. lia. }
    destruct fuel; [done|]. rewrite Ha. by intros [= <-].
  - destruct fuel; [done|]. rewrite Ha. by intros [= <-].
Qed.

(** A run without failed attempts: call [i] reads channel
    [(cur_channel + i) mod N]. *)
Lemma rejection_free_run fuel n : ∀ m rs m',
  wf m → 0 < length (source_list m) →
  rejection_free n m = true →
  calls fuel n m = Done (rs, m') →
  cur_channel m' = (cur_channel m + n) mod length (source_list m) ∧
  ∀ i r, rs !! i = Some r →
    ∃ track source, r = Some track ∧
      source_list m !! ((cur_channel m + i) mod length (source_list m))
        = Some source ∧
      track ∈ source.
Proof.
  induction n as [|n IH]; intros m rs m' Hwf HN; simpl.
  - intros _ [= <- <-]. split.
    + rewrite Nat.add_0_r, Nat.mod_small; [done|]. by apply Hwf.
    + intros i r Hi. by rewrite lookup_nil in Hi.
  - intros [Hg Hfree]%andb_true_iff.
    destruct (attempt (prep m)) as [[[t|] m1]| |] eqn:Ha; try done.
    destruct (next_track_candidate fuel m) as [x| |] eqn:Hcall; try done.
    rewrite (rejection_free_first fuel m t m1 Hg Ha x Hcall).
    destruct (calls fuel n m1) as [[rs1 m2]| |] eqn:Hrest; try done.
    intros [= <- <-].
    pose proof (prep_wf m Hwf) as Hwfp.
    destruct (prep_config m) as [Hsp _ _ _ _].
    destruct (attempt_config _ _ _ Ha) as [Hs1 _ _ _ _].
    assert (cur_channel (prep m) = cur_channel m) as Hcp.
    { unfold prep. by destruct (prepped m). }
    assert (cur_channel m < length (source_list m)) as Hc by (by apply Hwf).
    assert (cur_channel m1 = (cur_channel m + 1) mod length (source_list m))
      as Hc1.
    { rewrite (attempt_channel _ _ _ (ltac:(rewrite Hcp, Hsp; exact Hc)) Ha).
      by rewrite Hcp, Hsp. }
    destruct (IH m1 rs1 m2) as [Hfin Hread]; auto.
    { eapply attempt_wf; [exact Hwfp| |exact Ha]. by rewrite Hsp. }
    { by rewrite Hs1, Hsp. }
    rewrite Hs1, Hsp, Hc1 in Hfin, Hread.
    split.
    + rewrite Hfin, Nat.Div0.add_mod_idemp_l. f_equal. lia.
    + intros [|i] r; simpl.
      * intros [= <-]. apply attempt_inv in Ha.
        inversion Ha as [| |source position track Hsrc Hpos Htrack Hgood];
          subst.
        exists t, source. split_and!; [done| |by eapply list_elem_of_lookup_2].
        rewrite Nat.add_0_r, Nat.mod_small by done.
        by rewrite <- Hcp, <- Hsp.
      * intros Hi. destruct (Hread i r Hi) as (track & source & -> & Hsrc & Hin).
        exists track, source. split_and!; [done| |done].
        rewrite Nat.Div0.add_mod_idemp_l in Hsrc.
        by replace (cur_channel m + S i) with (cur_channel m + 1 + i) by lia.
Qed.

(** C8: on a mixer with [N > 0] sources the channel index is in [[0, N)] in
    every reachable state; every attempt, accepted or not, moves it by
    [+1 mod N]; and as long as no candidate is rejected and no channel is
    found exhausted, call [i] reads channel [i mod N], so the sources are
    visited in the order 0, 1, ..., N-1, 0, 1, ... *)
Theorem round_robin sources dd sep ff maxt :
  0 < length sources →
  (∀ m, reachable (init sources dd sep ff maxt) m →
     cur_channel m < length sources) ∧
  (∀ m r m', reachable (init sources dd sep ff maxt) m →
     attempt m = Done (r, m') →
     cur_channel m' = (cur_channel m + 1) mod length sources) ∧
  (∀ fuel n rs m',
     rejection_free n (init sources dd sep ff maxt) = true →
     calls fuel n (init sources dd sep ff maxt) = Done (rs, m') →
     cur_channel m' = n mod length sources ∧
     ∀ i r, rs !! i = Some r →
       ∃ track source, r = Some track ∧
         sources !! (i mod length sources) = Some source ∧ track ∈ source).
Proof.
  intros HN.
  assert (∀ m, reachable (init sources dd sep ff maxt) m →
            source_list m = sources ∧ cur_channel m < length sources) as Hreach.
  { intros m Hm.
    destruct (reachable_config _ _ Hm) as [Hs _ _ _ _]. simpl in Hs.
    split; [done|]. rewrite <- Hs.
    apply (reachable_wf _ _ (init_wf sources dd sep ff maxt) Hm).
    by rewrite Hs. }
  split_and!.
  - intros m Hm. by apply Hreach.
  - intros m r m' Hm Ha. destruct (Hreach m Hm) as [Hs Hc].
    rewrite <- Hs. apply (attempt_channel m r m'); [by rewrite Hs|done].
  - intros fuel n rs m' Hfree Hrun.
    by apply (rejection_free_run fuel n _ rs m' (init_wf sources dd sep ff maxt)).
Qed.

Lemma round_robin_witness :
  0 < length [[A1; A2]; [B1; C1t]] ∧
  rejection_free 3 (init [[A1; A2]; [B1; C1t]] true 1 true 10) = true ∧
  ∃ m', calls 1 3 (init [[A1; A2]; [B1; C1t]] true 1 true 10)
          = Done ([Some A1; Some B1; Some A2], m') ∧
        cur_channel m' = 3 mod length [[A1; A2]; [B1; C1t]].
Proof.
  split; [simpl; lia|]. split; [vm_compute; reflexivity|].
  eexists. split; [vm_compute; reflexivity|].
  refine (proj1 (proj2 (proj2
            (round_robin [[A1; A2]; [B1; C1t]] true 1 true 10 _)) 1 3 _ _ _ _));
    [simpl; lia | vm_compute; reflexivity | vm_compute; reflexivity].
Defined.

(** ** Fuel and composition of runs *)

Lemma calls_fuel fuel fuel' n : ∀ m x,
  fuel ≤ fuel' → calls fuel n m = Done x → calls fuel' n m = Done x.
Proof.
  induction n as [|n IH]; intros m x Hle; simpl; [done|].
  unfold next_track_candidate.
  destruct (next_track_loop fuel (prep m) 0) as [[r m1]| |] eqn:Hcall; try done.
  rewrite (next_track_loop_fuel fuel fuel' _ _ _ Hle Hcall).
  destruct (calls fuel n m1) as [[rs1 m2]| |] eqn:Hrest; try done.
  by rewrite (IH m1 _ Hle Hrest).
Qed.

Lemma calls_app fuel a b : ∀ m rs1 m1 rs2 m2,
  calls fuel a m = Done (rs1, m1) →
  calls fuel b m1 = Done (rs2, m2) →
  calls fuel (a + b) m = Done (rs1 ++ rs2, m2).
Proof.
  induction a as [|a IH]; intros m rs1 m1 rs2 m2; simpl.
  - by intros [= <- <-].
  - destruct (next_track_candidate fuel m) as [[r m']| |]; try done.
    destruct (calls fuel a m') as [[rs' m'']| |] eqn:Hrest; try done.
    intros [= <- <-] Hb. by rewrite (IH m' rs' m'' rs2 m2 Hrest Hb).
Qed.

(** A call that returns [None] and ends in the state it started from keeps
    returning [None]. *)
Lemma calls_fixed_point fuel k m :
  next_track_candidate fuel m = Done (None, m) →
  calls fuel k m = Done (replicate k None, m).
Proof.
  intros Hcall. induction k as [|k IH]; simpl; [done|].
  by rewrite Hcall, IH.
Qed.

(** ** When [None] is returned *)

Lemma next_track_loop_none fuel : ∀ m cf m',
  next_track_loop fuel m cf = Done (None, m') →
  track_history m' = track_history m ∧
  artist_history m' = artist_history m ∧
  prepped m' = prepped m.
Proof.
  induction fuel as [|fuel IH]; intros m cf m';
    loop_cases m cf (@O) || loop_cases m cf (S fuel);
    try (by intros [= <-]); try done.
  destruct (attempt m) as [[[t|] m1]| |] eqn:Ha; try done.
  intros (-> & -> & ->)%IH. by apply attempt_failed.
Qed.

(** Without [fail_fast] the loop has one exit that returns [None]: its
    guard. *)
Lemma next_track_loop_slow_none fuel : ∀ m cf m',
  fail_fast m = false → loop_guard m = true →
  next_track_loop fuel m cf ≠ Done (None, m').
Proof.
  induction fuel as [|fuel IH]; intros m cf m' Hff Hg;
    rewrite next_track_loop_eq, Hg, Hff; simpl; [done|].
  destruct (attempt m) as [[[t|] m1]| |] eqn:Ha; try done.
  apply IH.
  - by rewrite (sc_fail_fast _ _ (attempt_config _ _ _ Ha)).
  - by rewrite (loop_guard_failed _ _ Ha).
Qed.

(** With [fail_fast], a dead round started after [cf] failures makes
    [N - cf] more attempts. *)
Lemma next_track_loop_none_channel fuel : ∀ m cf m',
  wf m → loop_guard m = true → fail_fast m = true →
  cf ≤ length (source_list m) →
  next_track_loop fuel m cf = Done (None, m') →
  cur_channel m' =
    (cur_channel m + (length (source_list m) - cf)) mod length (source_list m).
Proof.
  induction fuel as [|fuel IH]; intros m cf m' Hwf Hg Hff Hcf;
    pose proof (loop_guard_sources _ Hg) as HN;
    pose proof (wf_channel _ Hwf HN) as Hc;
    rewrite next_track_loop_eq, Hg, Hff; simpl;
    (destruct (Nat.leb_spec (length (source_list m)) cf) as [Hle|Hlt];
     [intros [= <-];
      replace (length (source_list m) - cf) with 0 by lia;
      by rewrite Nat.add_0_r, Nat.mod_small|]); [done|].
  destruct (attempt m) as [[[t|] m1]| |] eqn:Ha; try done.
  intros Hloop.
  destruct (attempt_config _ _ _ Ha) as [Hs _ _ Hf _].
  rewrite (IH m1 (S cf) m'); try done.
  - rewrite Hs, (attempt_channel _ _ _ Hc Ha), Nat.Div0.add_mod_idemp_l.
    f_equal. lia.
  - by eapply attempt_wf.
  - by rewrite (loop_guard_failed _ _ Ha).
  - congruence.
  - rewrite Hs. lia.
Qed.

(** A call that returns [None] without moving a cursor changes nothing but
    [prepped]. *)
Lemma next_track_none_unchanged fuel m m' :
  wf m →
  next_track_candidate fuel m = Done (None, m') →
  source_positions m' = source_positions m →
  m' = prep m.
Proof.
  intros Hwf Hcall Hpos. unfold next_track_candidate in Hcall.
  assert (source_positions (prep m) = source_positions m) as Hpp.
  { unfold prep. by destruct (prepped m). }
  destruct (next_track_loop_none _ _ _ _ Hcall) as (Ht & Ha & Hp).
  apply mixer_eq; try done; [by eapply next_track_loop_config| |congruence].
  destruct (loop_guard (prep m)) eqn:Hg.
  - destruct (fail_fast (prep m)) eqn:Hff.
    + rewrite (next_track_loop_none_channel fuel (prep m) 0 m');
        auto using prep_wf with lia.
      pose proof (loop_guard_sources _ Hg) as HN.
      pose proof (wf_channel _ (prep_wf _ Hwf) HN) as Hc.
      rewrite Nat.sub_0_r.
      rewrite <- (Nat.mul_1_l (length (source_list (prep m)))) at 1.
      rewrite Nat.Div0.mod_add. by apply Nat.mod_small.
    + by apply next_track_loop_slow_none in Hcall.
  - rewrite next_track_loop_eq, Hg in Hcall. by injection Hcall as <-.
Qed.

(** ** Exhaustion *)

(** C5 as stated fails: the second call on this mixer returns [None] (a dead
    round: [A2] is consumed and rejected for its artist), and the third call
    returns a track. *)
Lemma exhaustion_not_terminal :
  ∃ m1 m2 m3,
    calls 1 1 (init [[A1; A2; C1t]] true 4 true 1000) = Done ([Some A1], m1) ∧
    next_track 1 m1 = Done (None, m2) ∧
    next_track 1 m2 = Done (Some "C1", m3).
Proof.
  eexists _, _, _. split_and!; vm_compute; reflexivity.
Qed.

(** C5, amended: on a mixer built by [init], a [None] returned by a call
    that consumed no track reference (every cursor is where it was) is
    final: every later call returns [None] as well. *)
Theorem exhaustion_terminal sources dd sep ff maxt fuel n rs m m' :
  calls fuel n (init sources dd sep ff maxt) = Done (rs, m) →
  next_track fuel m = Done (None, m') →
  source_positions m' = source_positions m →
  ∀ fuel' k, fuel ≤ fuel' →
    calls fuel' k m' = Done (replicate k None, m') ∧
    next_track fuel' m' = Done (None, m').
Proof.
  intros Hrun Hcall Hpos fuel' k Hle.
  assert (wf m) as Hwf by eauto using calls_wf, init_wf.
  unfold next_track in Hcall.
  destruct (next_track_candidate fuel m) as [[[t|] m1]| |] eqn:Hc; try done.
  injection Hcall as ->.
  pose proof (next_track_none_unchanged _ _ _ Hwf Hc Hpos) as ->.
  assert (next_track_candidate fuel' (prep m) = Done (None, prep m)) as Hfix.
  { unfold next_track_candidate in *. rewrite prep_idemp.
    by apply (next_track_loop_fuel fuel). }
  split; [by apply calls_fixed_point|].
  unfold next_track. by rewrite Hfix.
Qed.

Lemma exhaustion_terminal_witness :
  ∃ m m',
    calls 2 2 (init [[A1]; [B1]] true 4 true 10)
      = Done ([Some A1; Some B1], m) ∧
    next_track 2 m = Done (None, m') ∧
    source_positions m' = source_positions m ∧
    2 ≤ 5 ∧
    calls 5 3 m' = Done (replicate 3 None, m') ∧
    next_track 5 m' = Done (None, m').
Proof.
  eexists _, _.
  split; [vm_compute; reflexivity|].
  split; [vm_compute; reflexivity|].
  split; [vm_compute; reflexivity|].
  split; [lia|].
  eapply (exhaustion_terminal [[A1]; [B1]] true 4 true 10 2 2);
    [vm_compute; reflexivity | vm_compute; reflexivity
    | vm_compute; reflexivity | lia].
Defined.

(** ** The two-source scenario *)

(** C4 as stated fails: whatever the fuel, three calls on the scenario never
    return [A1, B1, A2]. *)
Lemma scenario1_not_A1_B1_A2 :
  ¬ ∃ fuel rs m',
      calls fuel 3 scenario1 = Done (rs, m') ∧
      returned rs = [Some "A1"; Some "B1"; Some "A2"].
Proof.
  intros (fuel & rs & m' & Hrun & Hret).
  assert (∃ m3, calls 2 3 scenario1 = Done ([Some A1; Some B1; None], m3))
    as [m3 H3] by (eexists; vm_compute; reflexivity).
  destruct fuel as [|[|fuel]].
  - vm_compute in Hrun. discriminate.
  - vm_compute in Hrun. discriminate.
  - rewrite (calls_fuel 2 (S (S fuel)) 3 _ _ ltac:(lia) H3) in Hrun.
    injection Hrun as <- _. discriminate.
Qed.

(** C4, amended: the scenario produces exactly [A1, B1] and then only
    [None]: the third call consumes [A2], rejects it because artist [a] is
    still in the window, finds the other channel exhausted and gives up. *)
Theorem scenario1_output fuel n :
  ∃ rs m',
    calls (2 + fuel) (2 + n) scenario1 = Done (rs, m') ∧
    returned rs = [Some "A1"; Some "B1"] ++ replicate n None.
Proof.
  assert (∃ m2 m3,
            calls 2 2 scenario1 = Done ([Some A1; Some B1], m2) ∧
            next_track_candidate 2 m2 = Done (None, m3) ∧
            next_track_candidate 2 m3 = Done (None, m3))
    as (m2 & m3 & H2 & H3 & H4)
    by (eexists _, _; split_and!; vm_compute; reflexivity).
  assert (2 ≤ 2 + fuel) as Hle by lia.
  apply (calls_fuel 2 (2 + fuel) 2 _ _ Hle) in H2.
  apply (next_track_loop_fuel 2 (2 + fuel) _ _ _ Hle) in H3, H4.
  fold (next_track_candidate (2 + fuel) m2) in H3.
  fold (next_track_candidate (2 + fuel) m3) in H4.
  assert (∃ m', calls (2 + fuel) n m2 = Done (replicate n None, m'))
    as [m' Hn].
  { destruct n as [|n]; [by eexists|]. exists m3.
    cbn [calls replicate]. by rewrite H3, (calls_fixed_point _ n m3 H4). }
  exists ([Some A1; Some B1] ++ replicate n None), m'.
  split; [by apply (calls_app _ 2 n _ _ m2)|].
  unfold returned. rewrite fmap_app, fmap_replicate. done.
Qed.

(** ** Calls that do not return *)

Lemma exhausted_attempt m :
  wf m → 0 < length (source_list m) → all_exhausted m →
  attempt m = Done (None, next_channel m).
Proof.
  intros [Hp Hc] HN Hall. specialize (Hc HN).
  unfold attempt, get_next_candidate.
  destruct (lookup_lt_is_Some_2 (source_list m) _ Hc) as [source Hs].
  rewrite <- Hp in Hc.
  destruct (lookup_lt_is_Some_2 (source_positions m) _ Hc) as [position Hpos].
  rewrite Hs, Hpos.
  by rewrite (proj2 (Nat.leb_le _ _) (Hall _ _ _ Hs Hpos)).
Qed.

(** Without [fail_fast], once every source is read to its end and the cap is
    not reached, the loop of [next_track] only ever cycles through the
    channels: it times out for every amount of fuel. *)
Lemma fail_slow_diverges fuel : ∀ m cf,
  wf m → loop_guard m = true → fail_fast m = false → all_exhausted m →
  next_track_loop fuel m cf = Timeout.
Proof.
  induction fuel as [|fuel IH]; intros m cf Hwf Hg Hff Hall;
    rewrite next_track_loop_eq, Hg, Hff; simpl; [done|].
  pose proof (loop_guard_sources _ Hg) as HN.
  rewrite (exhausted_attempt m Hwf HN Hall).
  apply IH; try done.
  destruct Hwf as [Hp Hc]. split; [done|]. intros _.
  by apply (next_channel_lt m).
Qed.

(** C1 fails on the code when [fail_fast] is off: on the one-track source
    the first call returns the track and the second call never returns, where
    the design document has it return [None]. *)
Theorem fail_slow_call_never_returns :
  calls 1 1 (init [[A1]] true 4 false 1000) = Done ([Some A1], spent_mixer) ∧
  ∀ fuel, next_track fuel spent_mixer = Timeout.
Proof.
  split; [vm_compute; reflexivity|].
  assert (wf spent_mixer) as Hwf by (split; simpl; [done|lia]).
  assert (all_exhausted spent_mixer) as Hall.
  { intros [|i] source position; simpl; [|done].
    intros [= <-] [= <-]. simpl. lia. }
  assert (loop_guard spent_mixer = true) as Hg by (vm_compute; reflexivity).
  intros fuel. unfold next_track, next_track_candidate.
  change (prep spent_mixer) with spent_mixer.
  by rewrite (fail_slow_diverges fuel spent_mixer 0 Hwf Hg eq_refl Hall).
Qed.

(** ** The cap on emissions *)

Lemma size_add (X : gset string) (x : string) : size (X ∪ {[ x ]}) ≤ size X + 1.
Proof.
  rewrite size_union_alt.
  assert (size (({[ x ]} : gset string) ∖ X) ≤ size ({[ x ]} : gset string)) as H
    by (by apply subseteq_size, subseteq_difference_l).
  rewrite size_singleton in H. lia.
Qed.

Lemma attempt_within_cap m r m' :
  loop_guard m = true → attempt m = Done (r, m') → within_cap m'.
Proof.
  unfold loop_guard, within_cap.
  intros [_ Hlt%Z.ltb_lt]%andb_true_iff H%attempt_inv.
  destruct H; simpl; try lia.
  pose proof (size_add (track_history m) (track_id track)). lia.
Qed.

Lemma next_track_loop_within_cap fuel : ∀ m cf r m',
  within_cap m → next_track_loop fuel m cf = Done (r, m') → within_cap m'.
Proof.
  induction fuel as [|fuel IH]; intros m cf r m' Hcap;
    loop_cases m cf (@O) || loop_cases m cf (S fuel);
    try (by intros [= <- <-]); try done.
  destruct (attempt m) as [[[t|] m1]| |] eqn:Ha; try done.
  - intros [= <- <-]. by eapply attempt_within_cap.
  - intros Hloop. eapply IH; [|done]. by eapply attempt_within_cap.
Qed.

Lemma calls_within_cap fuel n : ∀ m rs m',
  within_cap m → calls fuel n m = Done (rs, m') → within_cap m'.
Proof.
  induction n as [|n IH]; intros m rs m' Hcap; simpl.
  - by intros [= <- <-].
  - destruct (next_track_candidate fuel m) as [[r m1]| |] eqn:Hcall; try done.
    destruct (calls fuel n m1) as [[rs1 m2]| |] eqn:Hrest; try done.
    intros [= <- <-]. eapply IH; [|done].
    eapply next_track_loop_within_cap; [|done].
    unfold within_cap, prep in *. by destruct (prepped m).
Qed.

(** What the guard of [next_track] does bound: the number of distinct ids
    returned; with [dedup] on that is the number of tracks returned. *)
Lemma distinct_cap sources dd sep ff maxt fuel n rs m' :
  calls fuel n (init sources dd sep ff maxt) = Done (rs, m') →
  (Z.of_nat (size (list_to_set (emitted_ids rs) : gset string)) ≤ Z.max 0 maxt)%Z.
Proof.
  intros Hrun.
  destruct (calls_init _ _ _ _ _ _ _ _ _ Hrun) as (_ & [_ _ _ _ Hm] & [Ht _ _ _]).
  unfold emitted_ids. rewrite <- Ht. simpl in Hm.
  rewrite <- Hm.
  apply (calls_within_cap fuel n (init sources dd sep ff maxt) rs m'); [|done].
  unfold within_cap. cbn [init track_history max_tracks].
  rewrite size_empty. lia.
Qed.

(** With [dedup] on, the cap bounds the number of tracks returned. *)
Lemma dedup_cap sources sep ff maxt fuel n rs m' :
  calls fuel n (init sources true sep ff maxt) = Done (rs, m') →
  (Z.of_nat (length (emitted_ids rs)) ≤ Z.max 0 maxt)%Z.
Proof.
  intros Hrun. pose proof (distinct_cap _ _ _ _ _ _ _ _ _ Hrun) as Hcap.
  destruct (calls_init _ _ _ _ _ _ _ _ _ Hrun) as (_ & [_ Hd _ _ _] & [_ Hn _ _]).
  simpl in Hd. rewrite size_list_to_set in Hcap by (by apply Hn). done.
Qed.

(** A call that returns a track had a positive cap. *)
Lemma next_track_loop_some fuel : ∀ m cf t m',
  next_track_loop fuel m cf = Done (Some t, m') → (0 < max_tracks m)%Z.
Proof.
  destruct fuel as [|fuel]; intros m cf t m';
    loop_cases m cf (@O) || loop_cases m cf (S fuel); try done;
    intros _; unfold loop_guard in Hguard;
    apply andb_true_iff in Hguard as [_ Hlt%Z.ltb_lt]; lia.
Qed.

(** [mix_tracks] counts the tracks it has collected and stops at the cap
    itself, whatever [dedup] is. *)
Lemma mix_loop_cap fuel rounds : ∀ mixer mixed out,
  mixed = [] ∨ (Z.of_nat (length mixed) < max_tracks mixer)%Z →
  mix_loop fuel rounds mixer mixed = Done out →
  (Z.of_nat (length out) ≤ Z.max 0 (max_tracks mixer))%Z.
Proof.
  induction rounds as [|rounds IH]; intros mixer mixed out Hmixed; simpl;
    [done|].
  unfold next_track, next_track_candidate.
  destruct (next_track_loop fuel (prep mixer) 0) as [[[t|] m1]| |] eqn:Hcall;
    simpl; try done.
  - pose proof (next_track_loop_some _ _ _ _ _ Hcall) as Hpos.
    rewrite (sc_max _ _ (prep_config mixer)) in Hpos.
    pose proof (sc_max _ _ (next_track_loop_config _ _ _ _ _ Hcall)) as Hm1.
    rewrite (sc_max _ _ (prep_config mixer)) in Hm1.
    assert (Z.of_nat (length (mixed ++ [track_id t])) ≤ max_tracks mixer)%Z
      as Hlen.
    { rewrite length_app; simpl. destruct Hmixed as [-> | Hlt]; simpl; lia. }
    destruct (Z.leb_spec (max_tracks mixer)
                (Z.of_nat (length (mixed ++ [track_id t])))) as [Hge|Hlt].
    + intros [= <-]. lia.
    + intros Hrest. rewrite <- Hm1. eapply IH; [|done]. right. lia.
  - intros [= <-]. destruct Hmixed as [-> | Hlt]; simpl; lia.
Qed.

Lemma mix_tracks_cap fuel rounds sources dd sep ff maxt out :
  mix_tracks fuel rounds sources dd sep ff maxt = Done out →
  (Z.of_nat (length out) ≤ Z.max 0 maxt)%Z.
Proof.
  intros Hmix.
  apply (mix_loop_cap fuel rounds (init sources dd sep ff maxt) [] out);
    [by left|done].
Qed.

(** C2 fails on the code when [dedup] is off: the guard of [next_track]
    compares the size of the set [track_history] with [max_tracks], so three
    tracks sharing one id are all returned under a cap of 2.  [mix_tracks]
    stops at 2 on the same input because it counts the list it builds. *)
Theorem cap_exceeded_without_dedup :
  ∃ m',
    calls 1 3 (init [[X1; X2; X3]] false 4 true 2)
      = Done ([Some X1; Some X2; Some X3], m') ∧
    returned [Some X1; Some X2; Some X3] = [Some "X"; Some "X"; Some "X"] ∧
    size (track_history m') = 1 ∧
    (max_tracks m' < Z.of_nat (length (emitted_ids [Some X1; Some X2; Some X3])))%Z ∧
    mix_tracks 1 3 [[X1; X2; X3]] false 4 true 2 = Done ["X"; "X"].
Proof.
  eexists. split_and!; vm_compute; reflexivity.
Qed.

(** ** Separation zero *)

(** With [min_artist_separation = 0] the artist window is never trimmed. *)
Lemma zero_separation_history_grows m track :
  min_artist_separation m = 0%Z →
  length (artist_history (add_to_history m track))
    = length (artist_history m) + 1.
Proof.
  intros Hk. rewrite add_to_history_artists_zero by done.
  by rewrite length_app.
Qed.

(** C3 fails on the code: with [min_artist_separation = 0] the slice
    [artist_history[-0:]] keeps the whole list, so after the first emission
    the window holds one artist (more than 0), and the next track by the same
    artist is rejected for its [artist_id] although its [track_id] is new. *)
Theorem zero_separation_still_rejects :
  ∃ m1 m2,
    calls 1 1 (init [[A1; A2]] true 0 true 1000) = Done ([Some A1], m1) ∧
    artist_history m1 = ["a"] ∧
    (min_artist_separation m1 < Z.of_nat (length (artist_history m1)))%Z ∧
    bool_decide (track_id A2 ∈ track_history m1) = false ∧
    good_candidate m1 A2 = false ∧
    next_track 1 m1 = Done (None, m2).
Proof.
  eexists _, _. split_and!; vm_compute; reflexivity.
Qed.

(** ** Cursors and the number of emissions *)

Lemma cursors_advance (ps : list nat) (srcs : list (list Track)) :
  Forall2 (λ position (source : list Track), position ≤ length source) ps srcs →
  ∀ i p src, ps !! i = Some p → srcs !! i = Some src → p < length src →
    Forall2 (λ position (source : list Track), position ≤ length source)
            (<[i := p + 1]> ps) srcs
    ∧ sum_list (<[i := p + 1]> ps) = sum_list ps + 1.
Proof.
  induction 1 as [|q src0 ps srcs Hq Hrest IH]; intros [|i] p src; simpl;
    try done.
  - intros [= ->] [= ->] Hlt. split; [constructor; [lia|done]|lia].
  - intros Hp Hsrc Hlt. destruct (IH i p src Hp Hsrc Hlt) as [Hall Hsum].
    split; [by constructor|]. rewrite Hsum. lia.
Qed.

Lemma cursors_sum (ps : list nat) (srcs : list (list Track)) :
  Forall2 (λ position (source : list Track), position ≤ length source) ps srcs →
  sum_list ps ≤ total_tracks srcs.
Proof. unfold total_tracks. induction 1; csimpl; lia. Qed.

Lemma init_cursors sources dd sep ff maxt :
  cursors_ok (init sources dd sep ff maxt) ∧
  consumed (init sources dd sep ff maxt) = 0.
Proof.
  unfold cursors_ok, consumed; simpl.
  induction sources as [|src sources [IH1 IH2]]; simpl.
  - split; [constructor|done].
  - split; [constructor; [lia|done]|done].
Qed.

(** Every attempt keeps the cursors inside their sources, and an accepted
    candidate has moved one of them. *)
Lemma attempt_cursors m r m' :
  cursors_ok m → attempt m = Done (r, m') →
  cursors_ok m' ∧ consumed m + length (option_list r) ≤ consumed m'.
Proof.
  unfold cursors_ok, consumed. intros Hok H%attempt_inv.
  destruct H as [source position Hs Hp Hle
                |source position track Hs Hp Ht Hg
                |source position track Hs Hp Ht Hg]; simpl.
  - split; [done|lia].
  - destruct (cursors_advance _ _ Hok _ _ _ Hp Hs (lookup_lt_Some _ _ _ Ht))
      as [Hall Hsum].
    split; [done|]. rewrite Hsum. lia.
  - destruct (cursors_advance _ _ Hok _ _ _ Hp Hs (lookup_lt_Some _ _ _ Ht))
      as [Hall Hsum].
    split; [done|]. rewrite Hsum. lia.
Qed.

Lemma next_track_loop_cursors fuel : ∀ m cf r m',
  cursors_ok m → next_track_loop fuel m cf = Done (r, m') →
  cursors_ok m' ∧ consumed m + length (option_list r) ≤ consumed m'.
Proof.
  induction fuel as [|fuel IH]; intros m cf r m' Hok;
    loop_cases m cf (@O) || loop_cases m cf (S fuel);
    try (intros [= <- <-]; simpl; split; [done|lia]); try done.
  destruct (attempt m) as [[[t|] m1]| |] eqn:Ha; try done.
  - intros [= <- <-]. by apply attempt_cursors.
  - intros Hloop. destruct (attempt_cursors _ _ _ Hok Ha) as [Hok1 Hle1].
    destruct (IH _ _ _ _ Hok1 Hloop) as [Hok' Hle'].
    split; [done|]. simpl in Hle1. lia.
Qed.

Lemma calls_cursors fuel n : ∀ m rs m',
  cursors_ok m → calls fuel n m = Done (rs, m') →
  cursors_ok m' ∧ consumed m + length (emitted rs) ≤ consumed m'.
Proof.
  induction n as [|n IH]; intros m rs m' Hok; simpl.
  - intros [= <- <-]. simpl. split; [done|lia].
  - destruct (next_track_candidate fuel m) as [[r m1]| |] eqn:Hcall; try done.
    destruct (calls fuel n m1) as [[rs1 m2]| |] eqn:Hrest; try done.
    intros [= <- <-].
    assert (cursors_ok (prep m) ∧ consumed (prep m) = consumed m) as [Hokp Hcp].
    { unfold cursors_ok, consumed, prep. by destruct (prepped m). }
    destruct (next_track_loop_cursors _ _ _ _ _ Hokp Hcall) as [Hok1 Hle1].
    destruct (IH _ _ _ Hok1 Hrest) as [Hok2 Hle2].
    split; [done|]. rewrite emitted_cons, length_app. lia.
Qed.

(** However many calls are made on a new mixer, they return at most as many
    tracks as the sources hold track references. *)
Lemma emissions_bounded_by_sources sources dd sep ff maxt fuel n rs m' :
  calls fuel n (init sources dd sep ff maxt) = Done (rs, m') →
  cursors_ok m' ∧ length (emitted rs) ≤ total_tracks sources.
Proof.
  intros Hrun.
  destruct (init_cursors sources dd sep ff maxt) as [Hok0 Hc0].
  destruct (calls_cursors _ _ _ _ _ Hok0 Hrun) as [Hok Hle].
  split; [done|].
  pose proof (cursors_sum _ _ Hok) as Hsum.
  rewrite (sc_sources _ _ (calls_config _ _ _ _ _ Hrun)) in Hsum.
  unfold consumed in *. simpl in Hsum. lia.
Qed.

(** * Further properties of the mixer *)

(** ** Safety and termination of [next_track] *)

(** No sequence of [next_track] calls on a mixer built by [init] raises
    [IndexError]: the channel index and the cursor list always fit the source
    list. *)
Theorem mixer_never_raises sources dd sep ff maxt fuel n :
  calls fuel n (init sources dd sep ff maxt) ≠ IndexError.
Proof. apply calls_no_raise, init_wf. Qed.

(** With [fail_fast] every call returns after at most [N] passes through the
    loop body, [N] being the number of sources. *)
Theorem fail_fast_calls_return sources dd sep maxt extra n :
  ∃ rs m',
    calls (length sources + extra) n (init sources dd sep true maxt)
      = Done (rs, m') ∧ length rs = n.
Proof.
  destruct (calls_fail_fast (length sources + extra) n
              (init sources dd sep true maxt)) as (rs & m' & Hrun);
    [apply init_wf | done | simpl; lia |].
  exists rs, m'. split; [done|].
  clear -Hrun. revert rs m' Hrun.
  generalize (init sources dd sep true maxt).
  induction n as [|n IH]; intros m rs m'; simpl.
  - by intros [= <- <-].
  - destruct (next_track_candidate _ m) as [[r m1]| |]; try done.
    destruct (calls _ n m1) as [[rs1 m2]| |] eqn:Hrest; try done.
    intros [= <- <-]. simpl. f_equal. by eapply IH.
Qed.

(** Without [fail_fast], a mixer whose sources are all read to the end while
    the cap is not reached never returns from [next_track]. *)
Theorem fail_slow_exhausted_never_returns sources dd sep maxt fuel n rs m :
  calls fuel n (init sources dd sep false maxt) = Done (rs, m) →
  all_exhausted m →
  loop_guard m = true →
  ∀ fuel', next_track fuel' m = Timeout.
Proof.
  intros Hrun Hall Hg fuel'.
  assert (wf m) as Hwf by eauto using calls_wf, init_wf.
  pose proof (sc_fail_fast _ _ (calls_config _ _ _ _ _ Hrun)) as Hff.
  simpl in Hff.
  unfold next_track, next_track_candidate.
  rewrite fail_slow_diverges; [done|by apply prep_wf|by rewrite loop_guard_prep| |].
  - by rewrite (sc_fail_fast _ _ (prep_config m)).
  - unfold all_exhausted, prep in *. by destruct (prepped m).
Qed.

Lemma fail_slow_exhausted_never_returns_witness :
  calls 1 1 (init [[A1]] true 4 false 1000) = Done ([Some A1], spent_mixer) ∧
  all_exhausted spent_mixer ∧
  loop_guard spent_mixer = true ∧
  ∀ fuel', next_track fuel' spent_mixer = Timeout.
Proof.
  assert (all_exhausted spent_mixer) as Hall.
  { intros [|i] source position; simpl; [|done].
    intros [= <-] [= <-]. simpl. lia. }
  split; [vm_compute; reflexivity|]. split; [exact Hall|].
  split; [vm_compute; reflexivity|].
  apply (fail_slow_exhausted_never_returns [[A1]] true 4 1000 1 1 [Some A1]);
    [vm_compute; reflexivity | exact Hall | vm_compute; reflexivity].
Defined.

(** Once [track_history] holds [max_tracks] ids (or more), every later call
    returns [None]. *)
Theorem cap_reached_is_final sources dd sep ff maxt fuel n rs m :
  calls fuel n (init sources dd sep ff maxt) = Done (rs, m) →
  (maxt ≤ Z.of_nat (size (track_history m)))%Z →
  ∀ fuel' k, ∃ m', calls fuel' k m = Done (replicate k None, m').
Proof.
  intros Hrun Hcap fuel' k. apply calls_guard_false.
  pose proof (sc_max _ _ (calls_config _ _ _ _ _ Hrun)) as Hm. simpl in Hm.
  unfold loop_guard. rewrite Hm.
  rewrite (proj2 (Z.ltb_ge _ _) Hcap). apply andb_false_r.
Qed.

Lemma cap_reached_is_final_witness :
  ∃ m,
    calls 1 2 (init [[A1; A2]; [B1]] true 4 true 2) = Done ([Some A1; Some B1], m) ∧
    (2 ≤ Z.of_nat (size (track_history m)))%Z ∧
    ∃ m', calls 0 3 m = Done (replicate 3 None, m').
Proof.
  eexists. split; [vm_compute; reflexivity|].
  split; [vm_compute; discriminate|].
  eapply (cap_reached_is_final [[A1; A2]; [B1]] true 4 true 2 1 2);
    [vm_compute; reflexivity | vm_compute; discriminate].
Defined.

(** ** Where the emitted tracks come from *)

Lemma attempt_from_source m t m' :
  attempt m = Done (Some t, m') →
  ∃ source, source ∈ source_list m ∧ t ∈ source.
Proof.
  intros H%attempt_inv.
  inversion H as [| |source position track Hs Hp Ht Hg]; subst.
  exists source. split; by eapply list_elem_of_lookup_2.
Qed.

Lemma next_track_loop_from_source fuel : ∀ m cf t m',
  next_track_loop fuel m cf = Done (Some t, m') →
  ∃ source, source ∈ source_list m ∧ t ∈ source.
Proof.
  induction fuel as [|fuel IH]; intros m cf t m';
    loop_cases m cf (@O) || loop_cases m cf (S fuel); try done.
  destruct (attempt m) as [[[t1|] m1]| |] eqn:Ha; try done.
  - intros [= <- <-]. by eapply attempt_from_source.
  - intros (source & Hin & Ht)%IH.
    rewrite (sc_sources _ _ (attempt_config _ _ _ Ha)) in Hin. eauto.
Qed.

Lemma calls_from_sources fuel n : ∀ m rs m',
  calls fuel n m = Done (rs, m') →
  ∀ t, t ∈ emitted rs → ∃ source, source ∈ source_list m ∧ t ∈ source.
Proof.
  induction n as [|n IH]; intros m rs m'; simpl.
  - intros [= <- <-] t Ht. by apply elem_of_nil in Ht.
  - destruct (next_track_candidate fuel m) as [[r m1]| |] eqn:Hcall; try done.
    destruct (calls fuel n m1) as [[rs1 m2]| |] eqn:Hrest; try done.
    intros [= <- <-] t. rewrite emitted_cons, elem_of_app.
    unfold next_track_candidate in Hcall.
    pose proof (sc_sources _ _ (next_track_loop_config _ _ _ _ _ Hcall)) as Hs1.
    pose proof (sc_sources _ _ (prep_config m)) as Hs0.
    intros [Ht|Ht].
    + destruct r as [t'|]; simpl in Ht; [|by apply elem_of_nil in Ht].
      apply list_elem_of_singleton in Ht as ->.
      apply next_track_loop_from_source in Hcall. by rewrite Hs0 in Hcall.
    + destruct (IH _ _ _ Hrest t Ht) as (source & Hin & Hts).
      rewrite Hs1, Hs0 in Hin. eauto.
Qed.

(** Every track id returned by [next_track] is the id of a track that stands
    in one of the sources given to the constructor. *)
Theorem emitted_tracks_come_from_sources sources dd sep ff maxt fuel n rs m' :
  calls fuel n (init sources dd sep ff maxt) = Done (rs, m') →
  ∀ tid, tid ∈ emitted_ids rs →
    ∃ source track,
      source ∈ sources ∧ track ∈ source ∧ track_id track = tid.
Proof.
  intros Hrun tid (track & -> & Ht)%list_elem_of_fmap.
  destruct (calls_from_sources _ _ _ _ _ Hrun track Ht) as (source & Hin & Hts).
  by exists source, track.
Qed.

Lemma emitted_tracks_come_from_sources_witness :
  ∃ m',
    calls 2 3 (init [[A1; A2]; [B1]] true 4 true 10)
      = Done ([Some A1; Some B1; None], m') ∧
    ∀ tid, tid ∈ emitted_ids [Some A1; Some B1; None] →
      ∃ source track,
        source ∈ [[A1; A2]; [B1]] ∧ track ∈ source ∧ track_id track = tid.
Proof.
  eexists. split; [vm_compute; reflexivity|].
  eapply (emitted_tracks_come_from_sources [[A1; A2]; [B1]] true 4 true 10 2 3).
  vm_compute; reflexivity.
Defined.

(** The cursors never pass the end of their source, and the calls return at
    most as many tracks as the sources hold track references. *)
Theorem cursors_and_emissions_bounded sources dd sep ff maxt fuel n rs m' :
  calls fuel n (init sources dd sep ff maxt) = Done (rs, m') →
  cursors_ok m' ∧
  length (emitted_ids rs) ≤ consumed m' ∧
  consumed m' ≤ total_tracks sources.
Proof.
  intros Hrun.
  destruct (init_cursors sources dd sep ff maxt) as [Hok0 Hc0].
  destruct (calls_cursors _ _ _ _ _ Hok0 Hrun) as [Hok Hle].
  pose proof (cursors_sum _ _ Hok) as Hsum.
  rewrite (sc_sources _ _ (calls_config _ _ _ _ _ Hrun)) in Hsum.
  unfold emitted_ids. rewrite length_fmap.
  split_and!; [done|lia|done].
Qed.

Lemma cursors_and_emissions_bounded_witness :
  ∃ m',
    calls 2 3 (init [[A1; A2]; [B1]] true 4 true 10)
      = Done ([Some A1; Some B1; None], m') ∧
    cursors_ok m' ∧
    length (emitted_ids [Some A1; Some B1; None]) ≤ consumed m' ∧
    consumed m' ≤ total_tracks [[A1; A2]; [B1]].
Proof.
  eexists. split; [vm_compute; reflexivity|].
  eapply (cursors_and_emissions_bounded [[A1; A2]; [B1]] true 4 true 10 2 3).
  vm_compute; reflexivity.
Defined.

(** ** What the cap of [next_track] bounds *)

(** The guard of [next_track] bounds the number of distinct ids returned by
    [max_tracks]; with [dedup] on this is the number of tracks returned. *)
Theorem next_track_cap sources dd sep ff maxt fuel n rs m' :
  calls fuel n (init sources dd sep ff maxt) = Done (rs, m') →
  (Z.of_nat (size (list_to_set (emitted_ids rs) : gset string)) ≤ Z.max 0 maxt)%Z ∧
  (dd = true → (Z.of_nat (length (emitted_ids rs)) ≤ Z.max 0 maxt)%Z).
Proof.
  intros Hrun. split; [by eapply distinct_cap|].
  intros ->. by eapply dedup_cap.
Qed.

Lemma next_track_cap_witness :
  ∃ m',
    calls 1 3 (init [[A1; A2]; [B1; C1t]] true 1 true 2)
      = Done ([Some A1; Some B1; None], m') ∧
    (Z.of_nat (size (list_to_set (emitted_ids [Some A1; Some B1; None]) : gset string))
       ≤ Z.max 0 2)%Z ∧
    (true = true →
       (Z.of_nat (length (emitted_ids [Some A1; Some B1; None])) ≤ Z.max 0 2)%Z).
Proof.
  eexists. split; [vm_compute; reflexivity|].
  eapply (next_track_cap [[A1; A2]; [B1; C1t]] true 1 true 2 1 3).
  vm_compute; reflexivity.
Defined.

(** ** Lifting an invariant from one attempt to runs *)

Section lifting.
Variable P : Mixer → list Track → Prop.
Hypothesis P_prep : ∀ m es, P m es → P (prep m) es.
Hypothesis P_attempt : ∀ m es r m',
  P m es → attempt m = Done (r, m') → P m' (es ++ option_list r).

Lemma next_track_loop_lift fuel : ∀ m cf r m' es,
  P m es → next_track_loop fuel m cf = Done (r, m') →
  P m' (es ++ option_list r).
Proof.
  induction fuel as [|fuel IH]; intros m cf r m' es HP;
    loop_cases m cf (@O) || loop_cases m cf (S fuel);
    try (intros [= <- <-]; simpl; by rewrite app_nil_r); try done.
  destruct (attempt m) as [[[t|] m1]| |] eqn:Ha; try done.
  - intros [= <- <-]. by apply (P_attempt m es (Some t)).
  - intros Hloop. pose proof (P_attempt m es None m1 HP Ha) as HP1.
    simpl in HP1; rewrite app_nil_r in HP1. eauto.
Qed.

Lemma calls_lift fuel n : ∀ m rs m' es,
  P m es → calls fuel n m = Done (rs, m') → P m' (es ++ emitted rs).
Proof.
  induction n as [|n IH]; intros m rs m' es HP; simpl.
  - intros [= <- <-]. by rewrite app_nil_r.
  - destruct (next_track_candidate fuel m) as [[r m1]| |] eqn:Hcall; try done.
    destruct (calls fuel n m1) as [[rs1 m2]| |] eqn:Hrest; try done.
    intros [= <- <-]. rewrite emitted_cons, app_assoc.
    eauto using next_track_loop_lift.
Qed.
End lifting.

(** ** Separation zero, in general *)

(** With [min_artist_separation = 0] the artist history is never trimmed
    ([artist_history[-0:]] is the whole list): it lists the artist of every
    track returned so far, and no artist is ever returned twice. *)
Theorem zero_separation_blocks_artists sources dd ff maxt fuel n rs m' :
  calls fuel n (init sources dd 0 ff maxt) = Done (rs, m') →
  artist_history m' = emitted_artists rs ∧ NoDup (emitted_artists rs).
Proof.
  intros Hrun.
  pose (P := λ (m : Mixer) (es : list Track),
          min_artist_separation m = 0%Z ∧
          artist_history m = artist_id <$> es ∧ NoDup (artist_id <$> es)).
  assert (P m' ([] ++ emitted rs)) as (_ & Hh & Hn).
  { apply (calls_lift P) with (fuel := fuel) (n := n)
      (m := init sources dd 0 ff maxt).
    - intros m es (Hk & Ha & Hnd). unfold P, prep.
      by destruct (prepped m).
    - intros m es r m1 (Hk & Ha & Hnd) Hatt%attempt_inv.
      destruct Hatt as [| |source position track Hs Hp Ht Hg];
        cbn [option_list]; rewrite ?app_nil_r; try done.
      apply good_candidate_true in Hg as [_ Hart].
      split_and!; [done| |].
      + etrans; [apply (add_to_history_artists_zero _ track); exact Hk|].
        simpl. by rewrite Ha, fmap_app.
      + rewrite fmap_app. apply NoDup_app. split_and!; [done| |apply NoDup_singleton].
        intros a Ha1 [->|[]%elem_of_nil]%elem_of_cons.
        apply Hart. by rewrite Ha.
    - split_and!; [done|done|constructor].
    - done. }
  done.
Qed.

Lemma zero_separation_blocks_artists_witness :
  ∃ m',
    calls 2 4 (init [[A1; A2; C1t]; [B1]] true 0 true 10)
      = Done ([Some A1; Some B1; None; Some C1t], m') ∧
    artist_history m' = emitted_artists [Some A1; Some B1; None; Some C1t] ∧
    NoDup (emitted_artists [Some A1; Some B1; None; Some C1t]).
Proof.
  eexists. split; [vm_compute; reflexivity|].
  eapply (zero_separation_blocks_artists [[A1; A2; C1t]; [B1]] true true 10 2 4).
  vm_compute; reflexivity.
Defined.

(** ** [mix_tracks] *)

Lemma emitted_somes (ts : list Track) : emitted (Some <$> ts) = ts.
Proof. unfold emitted. induction ts as [|t ts IH]; csimpl; [done|]. by rewrite IH. Qed.

(** The list built by the loop of [mix_tracks] is what a run of [next_track]
    calls emitted, all of them tracks. *)
Lemma mix_loop_run fuel rounds : ∀ mixer mixed out,
  mix_loop fuel rounds mixer mixed = Done out →
  ∃ ts m',
    calls fuel (length ts) mixer = Done (Some <$> ts, m') ∧
    out = mixed ++ (track_id <$> ts) ∧
    ((∃ m'', next_track fuel m' = Done (None, m'')) ∨
     (ts ≠ [] ∧ max_tracks mixer ≤ Z.of_nat (length out))%Z).
Proof.
  induction rounds as [|rounds IH]; intros mixer mixed out; simpl; [done|].
  unfold next_track.
  destruct (next_track_candidate fuel mixer) as [[[t|] m1]| |] eqn:Hcall;
    simpl; try done.
  - pose proof (sc_max _ _ (next_track_loop_config _ _ _ _ _ Hcall)) as Hm1.
    rewrite (sc_max _ _ (prep_config mixer)) in Hm1.
    destruct (Z.leb_spec (max_tracks mixer)
                (Z.of_nat (length (mixed ++ [track_id t])))) as [Hge|Hlt].
    + intros [= <-]. exists [t], m1. simpl. rewrite Hcall.
      split_and!; [done|done|]. right. by split.
    + intros (ts & m' & Hrun & -> & Hend)%IH.
      exists (t :: ts), m'. simpl. rewrite Hcall, Hrun.
      split_and!; [done|by rewrite <- app_assoc|].
      destruct Hend as [Hnone|[_ Hcap]]; [by left|right].
      split; [done|]. by rewrite Hm1 in Hcap.
  - intros [= <-]. exists [], mixer. simpl. rewrite app_nil_r.
    split_and!; [done|done|]. left. exists m1.
    unfold next_track. by rewrite Hcall.
Qed.



(** With [dedup] on, the list returned by [mix_tracks] has no repeated id,
    and every id in it is the id of a track of some source. *)
Theorem mix_tracks_distinct fuel rounds sources sep ff maxt out :
  mix_tracks fuel rounds sources true sep ff maxt = Done out →
  NoDup out ∧
  ∀ tid, tid ∈ out →
    ∃ source track, source ∈ sources ∧ track ∈ source ∧ track_id track = tid.
Proof.
  intros (ts & m' & Hrun & -> & _)%mix_loop_run.
  destruct (calls_init _ _ _ _ _ _ _ _ _ Hrun) as (_ & [_ Hd _ _ _] & [_ Hn _ _]).
  rewrite emitted_somes in Hn. split; [by apply Hn|].
  intros tid (track & -> & Ht)%list_elem_of_fmap.
  destruct (calls_from_sources _ _ _ _ _ Hrun track) as (source & Hin & Hts);
    [by rewrite emitted_somes|].
  by exists source, track.
Qed.

Lemma mix_tracks_distinct_witness :
  mix_tracks 2 5 [[A1; A1; A2]; [B1; A1]] true 0 true 10 = Done ["A1"; "B1"] ∧
  NoDup ["A1"; "B1"] ∧
  ∀ tid, tid ∈ ["A1"; "B1"] →
    ∃ source track,
      source ∈ [[A1; A1; A2]; [B1; A1]] ∧ track ∈ source ∧ track_id track = tid.
Proof.
  split; [vm_compute; reflexivity|].
  apply (mix_tracks_distinct 2 5 [[A1; A1; A2]; [B1; A1]] 0 true 10).
  vm_compute; reflexivity.
Defined.

Lemma mix_tracks_cap_witness :
  mix_tracks 1 3 [[X1; X2; X3]] false 4 true 2 = Done ["X"; "X"] ∧
  (Z.of_nat (length ["X"; "X"]) ≤ Z.max 0 2)%Z.
Proof.
  split; [vm_compute; reflexivity|].
  apply (mix_tracks_cap 1 3 [[X1; X2; X3]] false 4 true 2).
  vm_compute; reflexivity.
Defined.

(** With [fail_fast], [mix_tracks] returns: every [next_track] call needs at
    most [N] loop passes, and each round but the last reads at least one
    track reference. *)
Lemma mix_loop_terminates fuel rounds : ∀ mixer mixed,
  wf mixer → cursors_ok mixer → fail_fast mixer = true →
  length (source_list mixer) ≤ fuel →
  total_tracks (source_list mixer) - consumed mixer < rounds →
  ∃ out, mix_loop fuel rounds mixer mixed = Done out.
Proof.
  induction rounds as [|rounds IH]; intros mixer mixed Hwf Hok Hff Hfuel Hr;
    [lia|]. simpl. unfold next_track, next_track_candidate.
  pose proof (prep_config mixer) as [Hs0 _ _ Hf0 _].
  destruct (next_track_loop_fail_fast fuel (prep mixer) 0) as (r & m1 & Hcall);
    [by apply prep_wf | congruence | rewrite Hs0; lia |].
  rewrite Hcall. destruct r as [t|]; simpl; [|by eauto].
  destruct (_ <=? _)%Z; [by eauto|].
  pose proof (next_track_loop_config _ _ _ _ _ Hcall) as [Hs1 _ _ Hf1 _].
  assert (cursors_ok (prep mixer) ∧ consumed (prep mixer) = consumed mixer)
    as [Hokp Hcp].
  { unfold cursors_ok, consumed, prep. by destruct (prepped mixer). }
  destruct (next_track_loop_cursors _ _ _ _ _ Hokp Hcall) as [Hok1 Hle1].
  simpl in Hle1.
  pose proof (cursors_sum _ _ Hok1) as Hsum. fold (consumed m1) in Hsum.
  apply IH; [by eauto using prep_wf, next_track_loop_wf|done|congruence| |].
  - rewrite Hs1, Hs0. lia.
  - rewrite Hs1, Hs0 in *. lia.
Qed.

Theorem mix_tracks_terminates sources dd sep maxt extra_fuel extra_rounds :
  ∃ out,
    mix_tracks (length sources + extra_fuel)
               (total_tracks sources + 1 + extra_rounds)
               sources dd sep true maxt = Done out.
Proof.
  apply mix_loop_terminates; simpl.
  - apply init_wf.
  - apply init_cursors.
  - done.
  - lia.
  - lia.
Qed.

(** * Properties of the catalog-facing code *)

(** ** Batches *)

Lemma batches_unfold {A : Type} (limit : nat) (xs : list A) :
  batches limit xs =
    (λ k, take limit (drop (k * limit) xs))
      <$> seq 0 ((length xs + limit - 1) / limit).
Proof.
  unfold batches, py_range_step. rewrite <- list_fmap_compose.
  apply list_fmap_ext. intros _ k _. unfold py_slice; simpl.
  f_equal. lia.
Qed.

Lemma ceil_div_bounds (n limit : nat) :
  0 < limit →
  n ≤ (n + limit - 1) / limit * limit ∧
  ((n + limit - 1) / limit - 1) * limit < n + Nat.b2n (n =? 0).
Proof.
  intros Hl.
  pose proof (Nat.div_mod_eq (n + limit - 1) limit) as Hdm.
  pose proof (Nat.mod_upper_bound (n + limit - 1) limit ltac:(lia)) as Hmod.
  set (q := (n + limit - 1) / limit) in *.
  set (r := (n + limit - 1) mod limit) in *.
  destruct (Nat.eqb_spec n 0) as [->|Hn]; simpl; nia.
Qed.

Lemma chunks_concat {A : Type} (limit : nat) : ∀ (n : nat) (xs : list A),
  length xs ≤ n * limit →
  concat ((λ k, take limit (drop (k * limit) xs)) <$> seq 0 n) = xs.
Proof.
  induction n as [|n IH]; intros xs Hlen; simpl.
  - destruct xs; [done|simpl in Hlen; lia].
  - rewrite <- fmap_S_seq, <- list_fmap_compose.
    rewrite (list_fmap_ext _ (λ k, take limit (drop (k * limit) (drop limit xs)))
               (seq 0 n)); [|by intros i k _; simpl; rewrite drop_drop].
    rewrite IH; [by rewrite take_drop|].
    rewrite length_drop. lia.
Qed.

(** [add_tracks_to_playlist] sends every track id exactly once and in order,
    in [total_batches] requests of 1 to 100 ids each; nothing is sent for an
    empty list. *)
Theorem add_tracks_to_playlist_batches (track_ids : list string) :
  concat (add_tracks_to_playlist track_ids) = track_ids ∧
  Forall (λ batch, 0 < length batch ≤ 100) (add_tracks_to_playlist track_ids) ∧
  length (add_tracks_to_playlist track_ids) = total_batches track_ids.
Proof.
  unfold add_tracks_to_playlist, total_batches. rewrite batches_unfold.
  destruct (ceil_div_bounds (length track_ids) 100 ltac:(lia)) as [Hup Hlow].
  split_and!.
  - by apply chunks_concat.
  - apply Forall_forall. intros batch (k & -> & Hk)%list_elem_of_fmap.
    apply elem_of_seq in Hk. rewrite length_take, length_drop.
    destruct (Nat.eqb_spec (length track_ids) 0) as [H0|Hn];
      cbn [Nat.b2n] in Hlow.
    + rewrite H0 in Hk. change ((0 + 100 - 1) / 100) with 0 in Hk. lia.
    + assert (k * 100 < length track_ids) by nia. lia.
  - by rewrite length_fmap, length_seq.
Qed.

(** ** Paging *)

Lemma page_split {A : Type} (all : list A) (limit offset : nat) :
  0 < limit →
  (length (take limit (drop offset all)) <? limit) = false →
  length (take limit (drop offset all)) = limit ∧
  offset + limit ≤ length all.
Proof.
  intros Hl Hfull%Nat.ltb_ge.
  rewrite length_take, length_drop in *. lia.
Qed.

Lemma page_last {A : Type} (all : list A) (limit offset : nat) :
  (length (take limit (drop offset all)) <? limit) = true →
  take limit (drop offset all) = drop offset all.
Proof.
  intros Hshort%Nat.ltb_lt. apply take_ge.
  rewrite length_take in Hshort. lia.
Qed.




(** [get_playlist_by_name] returns [None] exactly when no playlist has one
    of the names; otherwise it returns one of the playlists with such a name,
    and each of them is returned for some random draw. *)
Theorem get_playlist_by_name_spec (playlists : list Playlist) (names : list string) :
  (∀ draw, get_playlist_by_name draw playlists names = None ↔
           ∀ p, p ∈ playlists → playlist_name p ∉ names) ∧
  (∀ draw p, get_playlist_by_name draw playlists names = Some p →
             p ∈ playlists ∧ playlist_name p ∈ names) ∧
  (∀ p, p ∈ playlists → playlist_name p ∈ names →
        ∃ draw, get_playlist_by_name draw playlists names = Some p).
Proof.
  unfold get_playlist_by_name, random_choice.
  set (selected := filter (λ p, playlist_name p ∈ names) playlists).
  assert (∀ p, p ∈ selected ↔ playlist_name p ∈ names ∧ p ∈ playlists) as Hsel.
  { intros p. unfold selected.
    apply (list_elem_of_filter (λ p, playlist_name p ∈ names)). }
  split_and!.
  - intros draw. destruct selected as [|q l] eqn:Hl.
    + split; [|done]. intros _ p Hp Hn.
      assert (p ∈ ([] : list Playlist)) as Hnil by (by apply Hsel).
      by apply elem_of_nil in Hnil.
    + split.
      * intros Hnone%lookup_ge_None_1.
        pose proof (Nat.mod_upper_bound draw (length (q :: l))
                      ltac:(simpl; lia)). lia.
      * intros Hall. exfalso.
        assert (q ∈ q :: l) as Hq by apply list_elem_of_here.
        apply Hsel in Hq as [Hqn Hqp]. by apply (Hall q).
  - intros draw p. destruct selected as [|q l] eqn:Hl; [done|].
    intros Hp%list_elem_of_lookup_2. apply Hsel in Hp. tauto.
  - intros p Hp Hn.
    assert (p ∈ selected) as Hin by (by apply Hsel).
    apply list_elem_of_lookup_1 in Hin as [i Hi].
    exists i. destruct selected as [|q l] eqn:Hl; [done|].
    by rewrite Nat.mod_small by (by eapply lookup_lt_Some).
Qed.

(** ** [get_playlist_tracks] *)



Lemma get_playlist_tracks_loop_pages all request fuel : ∀ offset tracks,
  serves_pages all request →
  length all - offset < fuel * 100 →
  get_playlist_tracks_loop fuel request offset tracks
    = Done (tracks ++ omap track_of_item (drop offset all)).
Proof.
  induction fuel as [|fuel IH]; intros offset tracks Hserve Hfuel;
    [lia|]. simpl. rewrite (Hserve 100 offset).
  destruct (length (take 100 (drop offset all)) <? 100) eqn:Hpage.
  - by rewrite (page_last _ _ _ Hpage).
  - destruct (page_split all 100 offset ltac:(lia) Hpage) as [_ Hle].
    rewrite IH by (done || lia).
    rewrite <- app_assoc, <- omap_app. do 3 f_equal.
    rewrite <- (take_drop 100 (drop offset all)) at 2.
    by rewrite drop_drop.
Qed.

(** Against a service that serves consecutive pages of the playlist's items,
    [get_playlist_tracks] returns the usable tracks of all the items, in
    playlist order. *)
Theorem get_playlist_tracks_complete all request extra :
  serves_pages all request →
  get_playlist_tracks (length all / 100 + 1 + extra) request
    = Done (omap track_of_item all).
Proof.
  intros Hserve. unfold get_playlist_tracks.
  rewrite (get_playlist_tracks_loop_pages all); [by rewrite drop_0|done|].
  pose proof (Nat.div_mod_eq (length all) 100).
  pose proof (Nat.mod_upper_bound (length all) 100 ltac:(lia)). lia.
Qed.

Lemma get_playlist_tracks_complete_witness :
  let all :=
    [mkApiItem (Some (mkApiTrack (Some "A1") [mkApiArtist (Some "a"); mkApiArtist (Some "z")]));
     mkApiItem None;
     mkApiItem (Some (mkApiTrack None [mkApiArtist (Some "b")]));
     mkApiItem (Some (mkApiTrack (Some "B1") []));
     mkApiItem (Some (mkApiTrack (Some "C1") [mkApiArtist None]));
     mkApiItem (Some (mkApiTrack (Some "B1") [mkApiArtist (Some "b")]))] in
  serves_pages all (λ limit offset, take limit (drop offset all)) ∧
  get_playlist_tracks (length all / 100 + 1 + 0)
    (λ limit offset, take limit (drop offset all)) = Done [A1; B1].
Proof.
  intros all. split; [by intros limit offset|].
  apply (get_playlist_tracks_complete all). by intros limit offset.
Defined.




(** ** Recommendation requests *)

(** The popularity window is ordered for every input; for a popularity in
    [[0, 100]] it lies in [[0, 100]], contains the popularity, is at most 40
    wide, and the swap of its ends never happens. *)
Theorem popularity_range_bounds (p100 : Z) :
  ((popularity_range p100).1 ≤ (popularity_range p100).2)%Z ∧
  ((0 ≤ p100 ≤ 100)%Z →
     popularity_range p100 = (Z.max (p100 - 20) 0, Z.min (p100 + 20) 100) ∧
     (0 ≤ (popularity_range p100).1 ≤ p100)%Z ∧
     (p100 ≤ (popularity_range p100).2 ≤ 100)%Z ∧
     ((popularity_range p100).2 - (popularity_range p100).1 ≤ 40)%Z).
Proof.
  unfold popularity_range.
  destruct (Z.ltb_spec (Z.min (p100 + 20) 100) (Z.max (p100 - 20) 0));
    simpl; split; try lia; intros Hp; split_and!; try lia.
  f_equal; lia.
Qed.

Lemma seq_min_2 (n : nat) :
  seq 0 (min n 2) = [] ∧ n = 0 ∨
  seq 0 (min n 2) = [0] ∧ n = 1 ∨
  seq 0 (min n 2) = [0; 1] ∧ 2 ≤ n.
Proof.
  destruct n as [|[|n]]; [left|right; left|right; right].
  - done.
  - done.
  - rewrite Nat.min_r by lia. split; [done|lia].
Qed.

Lemma py_slice_length {A : Type} (i k : nat) (l : list A) :
  length (py_slice i (i + k) l) = min k (length l - i).
Proof.
  unfold py_slice. rewrite length_take, length_drop. f_equal. lia.
Qed.

Lemma py_slice_subseteq {A : Type} (i j : nat) (l : list A) x :
  x ∈ py_slice i j l → x ∈ l.
Proof.
  unfold py_slice. intros Hx.
  apply list_elem_of_lookup in Hx as [n Hn].
  apply lookup_take_Some in Hn as [Hn _]. rewrite lookup_drop in Hn.
  by eapply list_elem_of_lookup_2.
Qed.

(** Every request of [generate_recommendations] carries between 1 and 5
    seeds, all of them among the seeds passed in; there are at most 4 seed
    combinations, and none only if no seed was passed in. *)
Theorem seed_combinations_sizes shuffle_tracks shuffle_artists
    (seed_tracks0 seed_artists0 : list string) :
  (∀ l, shuffle_tracks l ≡ₚ l) →
  (∀ l, shuffle_artists l ≡ₚ l) →
  let combos :=
    seed_combinations shuffle_tracks shuffle_artists seed_tracks0 seed_artists0 in
  length combos ≤ 4 ∧
  (combos = [] ↔ seed_tracks0 = [] ∧ seed_artists0 = []) ∧
  ∀ seeds, seeds ∈ combos →
    1 ≤ seed_count seeds ≤ 5 ∧
    (∀ t, t ∈ default [] (seed_tracks seeds) → t ∈ seed_tracks0) ∧
    (∀ a, a ∈ default [] (seed_artists seeds) → a ∈ seed_artists0).
Proof.
  intros Hpt Hpa. unfold seed_combinations.
  set (st := shuffle_tracks (take 5 seed_tracks0)).
  set (sa := shuffle_artists (take 5 seed_artists0)).
  assert (length st = min 5 (length seed_tracks0)) as Hlt.
  { unfold st. by rewrite (Hpt _), length_take. }
  assert (length sa = min 5 (length seed_artists0)) as Hla.
  { unfold sa. by rewrite (Hpa _), length_take. }
  assert (∀ t, t ∈ st → t ∈ seed_tracks0) as Hst.
  { intros t. unfold st. rewrite (Hpt _). apply subseteq_take. }
  assert (∀ a, a ∈ sa → a ∈ seed_artists0) as Hsa.
  { intros a. unfold sa. rewrite (Hpa _). apply subseteq_take. }
  assert (∀ i j,
            i < length st → j < length sa →
            1 ≤ seed_count (mkSeeds (Some (py_slice i (i + 3) st))
                                    (Some (py_slice j (j + 2) sa))) ≤ 5)
    as Hcount.
  { intros i j Hi Hj. unfold seed_count; simpl.
    rewrite !py_slice_length. lia. }
  assert (seed_tracks0 = [] ↔ length st = 0) as Hnt.
  { rewrite Hlt. destruct seed_tracks0; simpl; split; (done || lia). }
  assert (seed_artists0 = [] ↔ length sa = 0) as Hna.
  { rewrite Hla. destruct seed_artists0; simpl; split; (done || lia). }
  clearbody st sa. clear Hlt Hla Hpt Hpa.
  destruct (seq_min_2 (length st)) as [[-> H1]|[[-> H1]|[-> H1]]];
    destruct (seq_min_2 (length sa)) as [[-> H2]|[[-> H2]|[-> H2]]];
    (destruct st as [|t0 st']; simpl in H1; try lia);
    (destruct sa as [|a0 sa']; simpl in H2; try lia);
    csimpl.
  all: split; [simpl; lia|].
  all: split;
    [split; [first [done|intros _; split; [apply Hnt|apply Hna]; simpl; lia]
            |first [done|intros [E1%Hnt E2%Hna]; simpl in *; lia]]|].
  all: intros seeds Hin;
    repeat (apply elem_of_cons in Hin as [->|Hin]);
    try (by apply elem_of_nil in Hin).
  all: try (split; [apply Hcount; simpl; lia|];
            split; simpl; intros x Hx%py_slice_subseteq; by auto).
  all: unfold seed_count; simpl; rewrite ?length_take.
  all: split; [lia|].
  all: split; intros x Hx; try (by apply elem_of_nil in Hx).
  all: first [apply Hst | apply Hsa];
    apply elem_of_cons in Hx as [->|Hx]; [by left|right].
  all: by apply (subseteq_take 4) in Hx.
Qed.

Lemma seed_combinations_sizes_witness :
  (∀ l : list string, reverse l ≡ₚ l) ∧
  (∀ l : list string, (λ l, l) l ≡ₚ l) ∧
  let combos :=
    seed_combinations reverse (λ l, l)
      ["t1"; "t2"; "t3"; "t4"; "t5"; "t6"] ["a1"] in
  length combos ≤ 4 ∧
  (combos = [] ↔
     ["t1"; "t2"; "t3"; "t4"; "t5"; "t6"] = [] ∧ ["a1"] = ([] : list string)) ∧
  ∀ seeds, seeds ∈ combos →
    1 ≤ seed_count seeds ≤ 5 ∧
    (∀ t, t ∈ default [] (seed_tracks seeds) →
          t ∈ ["t1"; "t2"; "t3"; "t4"; "t5"; "t6"]) ∧
    (∀ a, a ∈ default [] (seed_artists seeds) → a ∈ ["a1"]).
Proof.
  split; [apply reverse_Permutation|]. split; [done|].
  apply (seed_combinations_sizes reverse (λ l, l));
    [apply reverse_Permutation | done].
Defined.

(** ** The loop of [generate_recommendations] *)

(** What the loop keeps true of [recommendations] and [fetched_tracks]. *)
Lemma collect_tracks_inv limit original tracks : ∀ recs fetched recs' fetched',
  NoDup recs →
  (∀ t, t ∈ recs → t ∈ fetched ∧ t ∉ original) →
  (Z.of_nat (length recs) < limit)%Z →
  collect_tracks limit original tracks recs fetched = (recs', fetched') →
  NoDup recs' ∧
  (∀ t, t ∈ recs' → t ∈ fetched' ∧ t ∉ original) ∧
  (Z.of_nat (length recs') ≤ limit)%Z ∧
  (∀ t, t ∈ recs' → t ∈ recs ∨ t ∈ tracks).
Proof.
  induction tracks as [|tid rest IH]; intros recs fetched recs' fetched'
    Hnd Hin Hlen; simpl.
  - intros [= <- <-]. split_and!; [done|done|lia|by left].
  - destruct (decide (tid ∉ fetched)) as [Hf|Hf];
      [rewrite (bool_decide_eq_true_2 _ Hf)
      |rewrite (bool_decide_eq_false_2 _ Hf)]; simpl.
    2: { intros H. destruct (IH _ _ _ _ Hnd Hin Hlen H) as (?&?&?&Hsrc).
         split_and!; try done. intros t Ht.
         destruct (Hsrc t Ht); [by left|right; by right]. }
    destruct (decide (tid ∉ original)) as [Ho|Ho];
      [rewrite (bool_decide_eq_true_2 _ Ho)
      |rewrite (bool_decide_eq_false_2 _ Ho)]; simpl.
    2: { intros H. destruct (IH _ _ _ _ Hnd Hin Hlen H) as (?&?&?&Hsrc).
         split_and!; try done. intros t Ht.
         destruct (Hsrc t Ht); [by left|right; by right]. }
    assert (NoDup (recs ++ [tid])) as Hnd'.
    { apply NoDup_app. split_and!; [done| |apply NoDup_singleton].
      intros x Hx [->|[]%elem_of_nil]%elem_of_cons.
      by destruct (Hin _ Hx). }
    assert (∀ t, t ∈ recs ++ [tid] →
              t ∈ fetched ∪ {[tid]} ∧ t ∉ original) as Hin'.
    { intros t [Ht|Ht]%elem_of_app.
      - destruct (Hin _ Ht). split; [by apply elem_of_union_l|done].
      - apply list_elem_of_singleton in Ht as ->.
        split; [by apply elem_of_union_r, elem_of_singleton|done]. }
    assert (length (recs ++ [tid]) = length recs + 1) as Hl
      by (rewrite length_app; simpl; lia).
    destruct (Z.leb_spec limit (Z.of_nat (length (recs ++ [tid])))) as [Hge|Hlt].
    + intros [= <- <-]. split_and!; [done|done|lia|].
      intros t [Ht|Ht]%elem_of_app; [by left|right].
      apply list_elem_of_singleton in Ht as ->. by left.
    + intros H. destruct (IH _ _ _ _ Hnd' Hin' Hlt H) as (?&?&?&Hsrc).
      split_and!; try done. intros t Ht.
      destruct (Hsrc t Ht) as [[Hr|Hr]%elem_of_app|Hr];
        [by left| |right; by right].
      apply list_elem_of_singleton in Hr as ->. right; by left.
Qed.

Lemma recommend_loop_sound recommend shuffle limit original fuel :
  ∀ call combos idx recs fetched total out,
  NoDup recs →
  (∀ t, t ∈ recs → t ∈ fetched ∧ t ∉ original) →
  (Z.of_nat (length recs) ≤ Z.max 0 limit)%Z →
  recommend_loop fuel call recommend shuffle limit original combos idx
    recs fetched total = Done out →
  NoDup out ∧ (∀ t, t ∈ out → t ∉ original) ∧
  (Z.of_nat (length out) ≤ Z.max 0 limit)%Z.
Proof.
  induction fuel as [|fuel IH];
    intros call combos idx recs fetched total out Hnd Hin Hlen; simpl.
  - destruct (_ && _); [done|]. intros [= <-].
    split_and!; [done|by intros t [_ ?]%Hin|done].
  - destruct ((Z.of_nat (length recs) <? limit)%Z) eqn:Hlt; simpl.
    2: { intros [= <-]. split_and!; [done|by intros t [_ ?]%Hin|done]. }
    apply Z.ltb_lt in Hlt.
    destruct (total <? 10000)%Z.
    2: { intros [= <-]. split_and!; [done|by intros t [_ ?]%Hin|done]. }
    destruct (length combos <=? idx).
    all: match goal with |- context [?l !! ?i] => destruct (l !! i) as [seeds|] end;
      try done.
    all: destruct (recommend call seeds _) as [tracks|];
      [|intros [= <-]; split_and!; [done|by intros t [_ ?]%Hin|done]].
    all: destruct (collect_tracks limit original tracks recs fetched)
           as [recs' fetched'] eqn:Hcol.
    all: destruct (collect_tracks_inv _ _ _ _ _ _ _ Hnd Hin Hlt Hcol)
           as (Hnd' & Hin' & Hlen' & _).
    all: destruct tracks as [|t0 tracks'];
      [intros [= <-]; split_and!; [done|by intros t [_ ?]%Hin'|lia]|].
    all: intros Hrec; eapply IH; [exact Hnd'|exact Hin'| |exact Hrec]; lia.
Qed.

(** Whatever the service answers, the list returned by
    [generate_recommendations] has no repeated id, contains no id of the
    original playlist, and is at most [limit] long. *)
Theorem generate_recommendations_sound fuel recommend shuffle_tracks
    shuffle_artists shuffle seed_tracks0 seed_artists0 original_track_ids
    limit out :
  generate_recommendations fuel recommend shuffle_tracks shuffle_artists
    shuffle seed_tracks0 seed_artists0 original_track_ids limit = Done out →
  NoDup out ∧
  (∀ t, t ∈ out → t ∉ original_track_ids) ∧
  (Z.of_nat (length out) ≤ Z.max 0 limit)%Z.
Proof.
  unfold generate_recommendations.
  destruct (seed_combinations _ _ _ _) as [|seeds combos].
  { intros [= <-]. split_and!; [constructor| |simpl; lia].
    intros t Ht. by apply elem_of_nil in Ht. }
  intros Hloop.
  apply recommend_loop_sound in Hloop as (Hnd & Hout & Hlen);
    [|constructor|by intros t Ht%elem_of_nil|simpl; lia].
  split_and!; [done| |done].
  intros t Ht Hot. apply (Hout t Ht). by apply elem_of_list_to_set.
Qed.

Lemma generate_recommendations_sound_witness :
  let recommend (call : nat) (seeds : Seeds) (lim : Z) :=
    if call =? 0 then Some ["r1"; "t1"; "r1"; "r2"; "r3"] else Some [] in
  generate_recommendations 3 recommend (λ l, l) (λ l, l) (λ _ l, l)
    ["t1"] ["a1"] ["t1"; "t2"] 2 = Done ["r1"; "r2"] ∧
  NoDup ["r1"; "r2"] ∧
  (∀ t, t ∈ ["r1"; "r2"] → t ∉ ["t1"; "t2"]) ∧
  (Z.of_nat (length ["r1"; "r2"]) ≤ Z.max 0 2)%Z.
Proof.
  intros recommend. split; [vm_compute; reflexivity|].
  apply (generate_recommendations_sound 3 recommend (λ l, l) (λ l, l)
           (λ _ l, l) ["t1"] ["a1"] ["t1"; "t2"] 2).
  vm_compute; reflexivity.
Defined.

Lemma recommend_loop_returns recommend shuffle limit original fuel :
  (∀ call l, length (shuffle call l) = length l) →
  ∀ call combos idx recs fetched total,
  combos ≠ [] →
  (10000 - total ≤ Z.of_nat fuel)%Z →
  ∃ out,
    recommend_loop fuel call recommend shuffle limit original combos idx
      recs fetched total = Done out.
Proof.
  intros Hsh.
  induction fuel as [|fuel IH];
    intros call combos idx recs fetched total Hne Hfuel; simpl.
  - destruct (Z.ltb_spec total 10000); [lia|].
    rewrite andb_false_r. eauto.
  - destruct (Z.ltb_spec (Z.of_nat (length recs)) limit) as [Hlt|];
      simpl; [|by eauto].
    destruct (Z.ltb_spec total 10000); [|by eauto].
    assert (0 < length combos) as Hlen.
    { destruct combos; [done|simpl; lia]. }
    destruct (Nat.leb_spec (length combos) idx) as [Hidx|Hidx].
    + destruct (lookup_lt_is_Some_2 (shuffle call combos) 0) as [seeds ->];
        [by rewrite Hsh|].
      destruct (recommend call seeds _) as [tracks|]; [|by eauto].
      destruct (collect_tracks _ _ _ _ _) as [recs' fetched'].
      destruct tracks; [by eauto|].
      apply IH; [|lia].
      intros Hnil. rewrite <- (Hsh call), Hnil in Hlen. simpl in Hlen. lia.
    + destruct (lookup_lt_is_Some_2 combos idx Hidx) as [seeds ->].
      destruct (recommend call seeds _) as [tracks|]; [|by eauto].
      destruct (collect_tracks _ _ _ _ _) as [recs' fetched'].
      destruct tracks; [by eauto|].
      apply IH; [done|lia].
Qed.

(** [generate_recommendations] always returns, after at most 10000 requests:
    each request adds at least 1 to [total_requested], and the seed
    combination read is always in range. *)
Theorem generate_recommendations_returns recommend shuffle_tracks
    shuffle_artists shuffle seed_tracks0 seed_artists0 original_track_ids
    limit extra :
  (∀ call l, shuffle call l ≡ₚ l) →
  ∃ out,
    generate_recommendations (Z.to_nat 10000 + extra) recommend shuffle_tracks
      shuffle_artists shuffle seed_tracks0 seed_artists0 original_track_ids
      limit = Done out.
Proof.
  intros Hsh. unfold generate_recommendations.
  destruct (seed_combinations _ _ _ _) as [|seeds combos]; [by eauto|].
  apply recommend_loop_returns; [|done|lia].
  intros call l. by rewrite (Hsh call l).
Qed.

Lemma generate_recommendations_returns_witness :
  (∀ (call : nat) (l : list Seeds), (λ _ l, l) call l ≡ₚ l) ∧
  ∃ out,
    generate_recommendations (Z.to_nat 10000 + 0) (λ _ _ _, Some ["r1"])
      (λ l, l) (λ l, l) (λ _ l, l) ["t1"] ["a1"] ["t1"] 1000 = Done out.
Proof.
  split; [done|].
  apply (generate_recommendations_returns (λ _ _ _, Some ["r1"])
           (λ l, l) (λ l, l) (λ _ l, l) ["t1"] ["a1"] ["t1"] 1000 0).
  done.
Defined.

Lemma popularity_range_bounds_witness :
  ((popularity_range 90).1 ≤ (popularity_range 90).2)%Z ∧
  (0 ≤ 90 ≤ 100)%Z ∧
  popularity_range 90 = (Z.max (90 - 20) 0, Z.min (90 + 20) 100) ∧
  (0 ≤ (popularity_range 90).1 ≤ 90)%Z ∧
  (90 ≤ (popularity_range 90).2 ≤ 100)%Z ∧
  ((popularity_range 90).2 - (popularity_range 90).1 ≤ 40)%Z.
Proof.
  destruct (popularity_range_bounds 90) as [Hord Hin].
  split; [exact Hord|]. split; [lia|]. apply Hin. lia.
Defined.

Lemma get_playlist_by_name_spec_witness :
  get_playlist_by_name 7
    [mkPlaylist "Daily Mix 1" "p1"; mkPlaylist "On Repeat" "p2";
     mkPlaylist "Daily Mix 3" "p3"]
    ["Daily Mix 1"; "Daily Mix 2"; "Daily Mix 3"]
    = Some (mkPlaylist "Daily Mix 3" "p3") ∧
  mkPlaylist "Daily Mix 3" "p3"
    ∈ [mkPlaylist "Daily Mix 1" "p1"; mkPlaylist "On Repeat" "p2";
       mkPlaylist "Daily Mix 3" "p3"] ∧
  playlist_name (mkPlaylist "Daily Mix 3" "p3")
    ∈ ["Daily Mix 1"; "Daily Mix 2"; "Daily Mix 3"].
Proof.
  split; [vm_compute; reflexivity|].
  apply (proj1 (proj2 (get_playlist_by_name_spec
           [mkPlaylist "Daily Mix 1" "p1"; mkPlaylist "On Repeat" "p2";
            mkPlaylist "Daily Mix 3" "p3"]
           ["Daily Mix 1"; "Daily Mix 2"; "Daily Mix 3"])) 7).
  vm_compute; reflexivity.
Defined.

(** ** What a [None] leaves behind *)

(** A call on a mixer built by [init] that returns [None] changes neither
    history nor the current channel (a dead round is a full turn through the
    channels); at most it has moved cursors past rejected candidates. *)
Theorem none_keeps_channel sources dd sep ff maxt fuel n rs m m' :
  calls fuel n (init sources dd sep ff maxt) = Done (rs, m) →
  next_track fuel m = Done (None, m') →
  cur_channel m' = cur_channel m ∧
  track_history m' = track_history m ∧
  artist_history m' = artist_history m ∧
  consumed m ≤ consumed m'.
Proof.
  intros Hrun Hcall.
  assert (wf m) as Hwf by eauto using calls_wf, init_wf.
  destruct (init_cursors sources dd sep ff maxt) as [Hok0 _].
  destruct (calls_cursors _ _ _ _ _ Hok0 Hrun) as [Hok _].
  unfold next_track in Hcall.
  destruct (next_track_candidate fuel m) as [[[t|] m1]| |] eqn:Hc; try done.
  injection Hcall as ->. unfold next_track_candidate in Hc.
  assert (cur_channel (prep m) = cur_channel m ∧
          track_history (prep m) = track_history m ∧
          artist_history (prep m) = artist_history m ∧
          cursors_ok (prep m) ∧ consumed (prep m) = consumed m)
    as (Hpc & Hpt & Hpa & Hpok & Hpcons).
  { unfold cursors_ok, consumed, prep. by destruct (prepped m). }
  destruct (next_track_loop_none _ _ _ _ Hc) as (Ht & Ha & _).
  destruct (next_track_loop_cursors _ _ _ _ _ Hpok Hc) as [_ Hle].
  simpl in Hle.
  split_and!; [|congruence|congruence|lia].
  rewrite <- Hpc.
  destruct (loop_guard (prep m)) eqn:Hg.
  - destruct (fail_fast (prep m)) eqn:Hff.
    + rewrite (next_track_loop_none_channel fuel (prep m) 0 m');
        auto using prep_wf with lia.
      pose proof (loop_guard_sources _ Hg) as HN.
      pose proof (wf_channel _ (prep_wf _ Hwf) HN) as Hch.
      rewrite Nat.sub_0_r.
      rewrite <- (Nat.mul_1_l (length (source_list (prep m)))) at 1.
      rewrite Nat.Div0.mod_add. by apply Nat.mod_small.
    + by apply next_track_loop_slow_none in Hc.
  - rewrite next_track_loop_eq, Hg in Hc. by injection Hc as <-.
Qed.

Lemma none_keeps_channel_witness :
  ∃ m m',
    calls 2 2 (init [[A1; A2; C1t]; [B1]] true 4 true 1000)
      = Done ([Some A1; Some B1], m) ∧
    next_track 2 m = Done (None, m') ∧
    cur_channel m' = cur_channel m ∧
    track_history m' = track_history m ∧
    artist_history m' = artist_history m ∧
    consumed m ≤ consumed m'.
Proof.
  eexists _, _.
  split; [vm_compute; reflexivity|]. split; [vm_compute; reflexivity|].
  eapply (none_keeps_channel [[A1; A2; C1t]; [B1]] true 4 true 1000 2 2);
    vm_compute; reflexivity.
Defined.
